(** * A* path planner (pathPlanner.py): model and verification

    The development embeds [heuristic] and [do_a_star] of
    [src/pathPlanner.py].

    - Cells are Python tuples of two unbounded integers: [Z * Z].
    - The grid is a list of rows of integers; [1] marks a traversable cell.
    - [g_scores] and [parents] are Python dicts keyed by cells: [gmap].
    - [open_set] is a Python list used in insertion order: [list entry].
    - Exceptions are results of type [res]; the two [while] loops take
      fuel, and [None] means that the fuel ran out.
    - [display_message], [print] and the module-level random generator
      are effects on a [world] that is passed along.
    - Python floats are reached through the interface [PyFloat]: the
      program converts integers to floats, raises them to the power
      [0.5], adds them and compares them.  Two implementations are
      given.  [binary64] is IEEE 754 double precision as the Standard
      Library specifies it, with [x ** 0.5] taken as the correctly
      rounded square root.  [exact_float] computes without rounding on
      numbers of the shape [a + sqrt b] and has the range of binary64.
    - What does not depend on the value of the f-scores is proved for
      every implementation of the interface.  What needs the conversion
      of integers not to overflow and an entry to be equal to itself is
      proved from the laws [FloatRange] and [FloatEq], which both
      implementations satisfy.  Optimality needs the order of the keys
      and is proved from the laws [FloatOrder] and [FloatAdmissible],
      which are established for the exact arithmetic. *)

From Stdlib Require Import ZArith Lia String DecimalString Reals Lra.
From Stdlib Require Import Floats.SpecFloat.
From stdpp Require Import gmap list.

Local Open Scope Z_scope.

(** ** Python values and exceptions *)

Abbreviation Cell := (Z * Z)%type.
Abbreviation Grid := (list (list Z)).

Inductive exn : Type :=
| IndexError
| ValueError
| OverflowError.

Inductive res (A : Type) : Type :=
| Ok (a : A)
| Raise (e : exn).
Arguments Ok {A} a.
Arguments Raise {A} e.

Definition res_bind {A B : Type} (r : res A) (k : A -> res B) : res B :=
  match r with
  | Ok a => k a
  | Raise e => Raise e
  end.

Notation "'let*' x ':=' r 'in' k" := (res_bind r (fun x => k))
  (at level 10, x name, r at level 100, k at level 200, only parsing).

(** [l[i]] for a Python list: negative indices count from the end. *)
Definition py_index {A : Type} (l : list A) (i : Z) : res A :=
  let n := Z.of_nat (length l) in
  if (0 <=? i) && (i <? n) then
    match l !! Z.to_nat i with Some x => Ok x | None => Raise IndexError end
  else if (- n <=? i) && (i <? 0) then
    match l !! Z.to_nat (n + i) with Some x => Ok x | None => Raise IndexError end
  else Raise IndexError.

(** ** The floating-point operations the program uses *)

Class PyFloat : Type := {
  float : Type;
  (** conversion of an [int] operand; [None] is Python's
      [OverflowError: int too large to convert to float] *)
  float_of_int : Z -> option float;
  (** [x ** 0.5] *)
  fpow_half : float -> float;
  (** [x + y] *)
  fadd : float -> float -> float;
  (** [x < y] *)
  flt : float -> float -> bool;
  (** [x == y] as [list.remove] tests it on tuple items (same object, or
      equal) *)
  feq : float -> float -> bool;
  (** the key [0] of the first open-set entry (an [int]; [min] sees it
      in a list of one item, so it is never compared) *)
  fzero : float
}.

(** ** Effects: reporter, standard output, random generator *)

Inductive event : Type :=
| Displayed (msg : string)   (* display_message(msg) *)
| Printed (line : string).   (* print(...) *)

Record world : Type := World {
  rng_draws : nat;           (* calls of [random.randint] so far *)
  trace : list event         (* oldest event first *)
}.

Definition display_message (msg : string) (w : world) : world :=
  World (rng_draws w) (trace w ++ [Displayed msg]).

Definition print (line : string) (w : world) : world :=
  World (rng_draws w) (trace w ++ [Printed line]).

(** [random.randint(a, b)]: the [i]-th number of the generator is
    [rnd i]; an empty range raises [ValueError]. *)
Definition randint (rnd : nat -> Z) (a b : Z) (w : world) : world * res Z :=
  if b <? a then (w, Raise ValueError)
  else (World (S (rng_draws w)) (trace w),
        Ok (a + rnd (rng_draws w) mod (b - a + 1))).

(** [str] of an integer, of a cell and of a list of cells. *)
Definition str_int (z : Z) : string := NilZero.string_of_int (Z.to_int z).

Definition str_cell (c : Cell) : string :=
  ("(" ++ str_int c.1 ++ ", " ++ str_int c.2 ++ ")")%string.

Fixpoint str_cells (l : list Cell) : string :=
  match l with
  | [] => ""%string
  | [c] => str_cell c
  | c :: l' => (str_cell c ++ ", " ++ str_cells l')%string
  end.

Definition str_path (l : list Cell) : string :=
  ("[" ++ str_cells l ++ "]")%string.

Definition reporter_log (w : world) : list string :=
  omap (fun e => match e with Displayed m => Some m | Printed _ => None end)
       (trace w).

Definition stdout (w : world) : list string :=
  omap (fun e => match e with Printed m => Some m | Displayed _ => None end)
       (trace w).

(** ** The program *)

Section Planner.
Context {F : PyFloat}.

Definition int_to_float (n : Z) : res float :=
  match float_of_int n with
  | Some x => Ok x
  | None => Raise OverflowError
  end.

(** [((a[0] - b[0])**2 + (a[1] - b[1])**2)**0.5] *)
Definition heuristic (a b : Cell) : res float :=
  let* x := int_to_float ((a.1 - b.1) ^ 2 + (a.2 - b.2) ^ 2) in
  Ok (fpow_half x).

(** An item [(f_score, g_score, node, parent)] of [open_set]. *)
Record entry : Type := Entry {
  e_f : float;
  e_g : Z;
  e_node : Cell;
  e_parent : option Cell
}.

Definition cell_eqb (a b : Cell) : bool := (a.1 =? b.1) && (a.2 =? b.2).

Definition parent_eqb (a b : option Cell) : bool :=
  match a, b with
  | None, None => true
  | Some x, Some y => cell_eqb x y
  | _, _ => false
  end.

(** Tuple equality, item by item. *)
Definition entry_eqb (x y : entry) : bool :=
  feq (e_f x) (e_f y) && (e_g x =? e_g y)
  && cell_eqb (e_node x) (e_node y) && parent_eqb (e_parent x) (e_parent y).

(** [min(l, key=lambda x: x[0])]: the first item is kept until an item
    with a strictly smaller key is met. *)
Fixpoint min_from (best : entry) (l : list entry) : entry :=
  match l with
  | [] => best
  | x :: l' => min_from (if flt (e_f x) (e_f best) then x else best) l'
  end.

Definition py_min (l : list entry) : res entry :=
  match l with
  | [] => Raise ValueError
  | x :: l' => Ok (min_from x l')
  end.

(** [l.remove(x)]: delete the first item equal to [x]. *)
Fixpoint py_remove (x : entry) (l : list entry) : res (list entry) :=
  match l with
  | [] => Raise ValueError
  | y :: l' =>
      if entry_eqb y x then Ok l'
      else let* l'' := py_remove x l' in Ok (y :: l'')
  end.

Definition movements : list (Z * Z) := [(0, 1); (1, 0); (0, -1); (-1, 0)].

Record state : Type := State {
  open_set : list entry;
  g_scores : gmap Cell Z;
  parents : gmap Cell Cell
}.

Definition initial (start : Cell) : state :=
  State [Entry fzero 0 start None] {[start := 0]} ∅.

Section Search.
Variable grid : Grid.
Variables start end_ : Cell.
Variables COL ROW : Z.
(** fuel of the path-reconstruction loop *)
Variable pfuel : nat.

(** [0 <= neighbor[0] < COL and 0 <= neighbor[1] < ROW and
    grid[neighbor[0]][neighbor[1]] == 1] *)
Definition walkable (neighbor : Cell) : res bool :=
  if (0 <=? neighbor.1) && (neighbor.1 <? COL)
     && (0 <=? neighbor.2) && (neighbor.2 <? ROW)
  then
    let* row := py_index grid neighbor.1 in
    let* v := py_index row neighbor.2 in
    Ok (v =? 1)
  else Ok false.

(** [neighbor not in g_scores or tentative_g < g_scores[neighbor]] *)
Definition improves (tentative_g : Z) (neighbor : Cell) (st : state) : bool :=
  match g_scores st !! neighbor with
  | None => true
  | Some g => tentative_g <? g
  end.

(** The body of [for dx, dy in movements] for a walkable neighbour. *)
Definition relax (current : Cell) (current_g : Z) (neighbor : Cell)
    (st : state) : res state :=
  let tentative_g := current_g + 1 in
  if improves tentative_g neighbor st then
    let g_scores' := <[neighbor := tentative_g]> (g_scores st) in
    let parents' := <[neighbor := current]> (parents st) in
    let* h := heuristic neighbor end_ in
    let* x := int_to_float tentative_g in
    let f_score := fadd x h in
    Ok (State (open_set st ++ [Entry f_score tentative_g neighbor (Some current)])
              g_scores' parents')
  else Ok st.

Fixpoint expand (current : Cell) (current_g : Z) (moves : list (Z * Z))
    (st : state) : res state :=
  match moves with
  | [] => Ok st
  | (dx, dy) :: moves' =>
      let neighbor := (current.1 + dx, current.2 + dy) in
      let* ok := walkable neighbor in
      let* st' := (if ok then relax current current_g neighbor st else Ok st) in
      expand current current_g moves' st'
  end.

(** One round of [while open_set:] up to the test [current == end]. *)
Inductive round : Type :=
| Reached (current : Cell) (st : state)
| Next (st : state).

Definition iteration (st : state) : res round :=
  let* cur := py_min (open_set st) in
  let* open' := py_remove cur (open_set st) in
  let st1 := State open' (g_scores st) (parents st) in
  if cell_eqb (e_node cur) end_ then Ok (Reached (e_node cur) st1)
  else
    let* st' := expand (e_node cur) (e_g cur) movements st1 in
    Ok (Next st').

(** [while current in parents: path.append(current);
    current = parents[current]]; returns [path] at the exit. *)
Fixpoint backtrack (fuel : nat) (parents : gmap Cell Cell) (current : Cell)
    (path : list Cell) : option (list Cell) :=
  match fuel with
  | O => None
  | S fuel' =>
      match parents !! current with
      | Some p => backtrack fuel' parents p (path ++ [current])
      | None => Some path
      end
  end.

(** The main loop and what follows it. *)
Fixpoint search (fuel : nat) (st : state) (w : world)
    : option (world * res (list Cell)) :=
  match fuel with
  | O => None
  | S fuel' =>
      match open_set st with
      | [] => Some (display_message "No path found!" w, Ok [])
      | _ :: _ =>
          match iteration st with
          | Raise e => Some (w, Raise e)
          | Ok (Reached current st1) =>
              match backtrack pfuel (parents st1) current [] with
              | None => None
              | Some path =>
                  let path := rev (path ++ [start]) in
                  let w := print ("Reconstructed Path:  " ++ str_path path) w in
                  let w := display_message "Path found!" w in
                  Some (w, Ok path)
              end
          | Ok (Next st') => search fuel' st' w
          end
      end
  end.

End Search.

(** [for i in range(1, 10): path.append((random.randint(0, COL-1),
    random.randint(0, ROW-1)))] *)
Fixpoint random_points (rnd : nat -> Z) (n : nat) (COL ROW : Z)
    (path : list Cell) (w : world) : world * res (list Cell) :=
  match n with
  | O => (w, Ok path)
  | S n' =>
      match randint rnd 0 (COL - 1) w with
      | (w1, Raise e) => (w1, Raise e)
      | (w1, Ok x) =>
          match randint rnd 0 (ROW - 1) w1 with
          | (w2, Raise e) => (w2, Raise e)
          | (w2, Ok y) => random_points rnd n' COL ROW (path ++ [(x, y)]) w2
          end
      end
  end.

Definition do_a_star (rnd : nat -> Z) (fuel : nat) (grid : Grid)
    (start end_ : Cell) (w : world) : option (world * res (list Cell)) :=
  let COL := Z.of_nat (length grid) in
  match py_index grid 0 with
  | Raise e => Some (w, Raise e)
  | Ok row0 =>
      let ROW := Z.of_nat (length row0) in
      match random_points rnd 9 COL ROW [] w with
      | (w1, Raise e) => Some (w1, Raise e)
      | (w1, Ok _path) =>
          let w2 := display_message "Created random path points" w1 in
          let w3 := display_message ("Start location is " ++ str_cell start) w2 in
          search grid start end_ COL ROW fuel fuel (initial start) w3
      end
  end.

End Planner.

(** ** Exact arithmetic on [a + sqrt b] *)

Module Exact.

Record num : Type := Num { whole : Z; radicand : Z }.

Definition value (x : num) : R :=
  (IZR (whole x) + sqrt (IZR (radicand x)))%R.

(** The first integer that a binary64 float cannot hold: it rounds to
    [2^1024]. *)
Definition overflow_threshold : Z := 2 ^ 1024 - 2 ^ 970.

Definition of_int (n : Z) : option num :=
  if Z.abs n <? overflow_threshold then Some (Num n 0) else None.

(** [x ** 0.5] for a non-negative integer [x]. *)
Definition pow_half (x : num) : num :=
  if (radicand x =? 0) && (0 <=? whole x) then Num 0 (whole x) else x.

(** [x + y] for an integer [x]. *)
Definition add (x y : num) : num :=
  if radicand x =? 0 then Num (whole x + whole y) (radicand y)
  else Num (whole x + whole y) (radicand x).

(** [a1 + sqrt r1 < a2 + sqrt r2], decided on integers. *)
Definition ltb (x y : num) : bool :=
  let r1 := Z.max 0 (radicand x) in
  let r2 := Z.max 0 (radicand y) in
  let d := whole y - whole x in
  if 0 <=? d then
    let k := r1 - d * d - r2 in
    (k <? 0) || (k * k <? 4 * d * d * r2)
  else
    let k := r2 - r1 - d * d in
    (0 <? k) && (4 * d * d * r1 <? k * k).

Definition eqb (x y : num) : bool := negb (ltb x y) && negb (ltb y x).

End Exact.

Instance exact_float : PyFloat := {|
  float := Exact.num;
  float_of_int := Exact.of_int;
  fpow_half := Exact.pow_half;
  fadd := Exact.add;
  flt := Exact.ltb;
  feq := Exact.eqb;
  fzero := Exact.Num 0 0
|}.

(** ** IEEE 754 binary64 *)

Module Binary64.

Definition prec : Z := 53.
Definition emax : Z := 1024.

Definition of_int (n : Z) : option spec_float :=
  match binary_normalize prec emax n 0 false with
  | S754_infinity _ => None
  | x => Some x
  end.

Definition is_nan (x : spec_float) : bool :=
  match x with S754_nan => true | _ => false end.

Definition eqb (x y : spec_float) : bool :=
  SFeqb x y || (is_nan x && is_nan y).

End Binary64.

Instance binary64 : PyFloat := {|
  float := spec_float;
  float_of_int := Binary64.of_int;
  fpow_half := SFsqrt Binary64.prec Binary64.emax;
  fadd := SFadd Binary64.prec Binary64.emax;
  flt := SFltb;
  feq := Binary64.eqb;
  fzero := S754_zero false
|}.

(** ** Laws of the floating-point operations *)

(** An item is equal to itself in [list.remove]. *)
Class FloatEq (F : PyFloat) : Prop :=
  feq_refl : forall x : float, feq x x = true.

(** Integers below [2^1023] in magnitude convert without overflow. *)
Class FloatRange (F : PyFloat) : Prop :=
  float_of_int_range :
    forall n : Z, Z.abs n < 2 ^ 1023 -> is_Some (float_of_int n).

(** [<] is a strict weak order on the keys. *)
Class FloatOrder (F : PyFloat) : Prop := {
  flt_irrefl : forall x : float, flt x x = false;
  flt_trans : forall x y z : float,
    flt x y = true -> flt y z = true -> flt x z = true;
  flt_weak : forall x y z : float,
    flt x y = true -> flt z y = false -> flt x z = true
}.

(** The heuristic does not overestimate in floating point: the key
    [g + n ** 0.5] is below the key [g' + 0 ** 0.5] as soon as
    [g + sqrt n <= g' - 1], and the key [0] is below [g' + 0 ** 0.5]
    for a positive [g']. *)
Class FloatAdmissible (F : PyFloat) : Prop := {
  f_score_admissible : forall (g n g' : Z) (xg xn xg' x0 : float),
    0 <= g -> 0 <= n -> g + 1 <= g' -> n <= (g' - 1 - g) ^ 2 ->
    float_of_int g = Some xg -> float_of_int n = Some xn ->
    float_of_int g' = Some xg' -> float_of_int 0 = Some x0 ->
    flt (fadd xg (fpow_half xn)) (fadd xg' (fpow_half x0)) = true;
  f_seed_least : forall (g' : Z) (xg' x0 : float),
    0 < g' -> float_of_int g' = Some xg' -> float_of_int 0 = Some x0 ->
    flt fzero (fadd xg' (fpow_half x0)) = true
}.

(** ** Notions of the specification *)

(** The cell is inside the grid and holds [1]. *)
Definition free (grid : Grid) (c : Cell) : bool :=
  (0 <=? c.1) && (0 <=? c.2) &&
  match grid !! Z.to_nat c.1 with
  | Some row =>
      match row !! Z.to_nat c.2 with
      | Some v => v =? 1
      | None => false
      end
  | None => false
  end.

(** [b] is [a] moved by one of the four offsets. *)
Definition is_step (a b : Cell) : Prop :=
  (b.1 - a.1, b.2 - a.2) ∈ movements.

Fixpoint chain (p : list Cell) : Prop :=
  match p with
  | a :: ((b :: _) as p') => is_step a b /\ chain p'
  | _ => True
  end.

(** [p] leads from [a] to [b] by steps into Free cells; nothing is asked
    of the first cell. *)
Definition walk (grid : Grid) (a b : Cell) (p : list Cell) : Prop :=
  head p = Some a /\ last p = Some b /\ chain p /\
  Forall (fun c => free grid c = true) (tail p).

(** [p] is a path from [a] to [b] over Free cells. *)
Definition free_path (grid : Grid) (a b : Cell) (p : list Cell) : Prop :=
  walk grid a b p /\ free grid a = true.

(** A non-empty rectangular grid, held in Python lists (whose length is
    at most [sys.maxsize = 2^63 - 1]). *)
Definition max_size : Z := 2 ^ 63 - 1.

(** Number of columns, [len(grid[0])], when there is a first row. *)
Definition width (grid : Grid) : Z :=
  match grid with
  | [] => 0
  | row0 :: _ => Z.of_nat (length row0)
  end.

Definition height (grid : Grid) : Z := Z.of_nat (length grid).

Definition wf_grid (grid : Grid) : Prop :=
  0 < height grid <= max_size /\
  0 < width grid <= max_size /\
  Forall (fun row => Z.of_nat (length row) = width grid) grid.

(** The same as a test. *)
Definition wf_gridb (grid : Grid) : bool :=
  (0 <? height grid) && (height grid <=? max_size) &&
  (0 <? width grid) && (width grid <=? max_size) &&
  forallb (fun row => Z.of_nat (length row) =? width grid) grid.

(** Coordinates of magnitude at most [2^500]. *)
Definition small (c : Cell) : Prop :=
  Z.abs c.1 <= 2 ^ 500 /\ Z.abs c.2 <= 2 ^ 500.

(** The cell is inside the grid. *)
Definition in_grid (grid : Grid) (c : Cell) : Prop :=
  0 <= c.1 < height grid /\ 0 <= c.2 < width grid.

Definition manhattan (a b : Cell) : Z := Z.abs (a.1 - b.1) + Z.abs (a.2 - b.2).

(** Fuel that suffices for both loops on a grid. *)
Definition enough_fuel (grid : Grid) : nat :=
  let n := S (Z.to_nat (height grid) * Z.to_nat (width grid)) in
  2 + 2 * (n * S n).

(** The cell is inside the grid and does not hold [1]. *)
Definition blocked (grid : Grid) (c : Cell) : bool :=
  (0 <=? c.1) && (0 <=? c.2) &&
  match grid !! Z.to_nat c.1 with
  | Some row =>
      match row !! Z.to_nat c.2 with
      | Some v => negb (v =? 1)
      | None => false
      end
  | None => false
  end.

(** The world when the main loop starts. *)
Definition started (start : Cell) (w : world) : world :=
  display_message ("Start location is " ++ str_cell start)
    (display_message "Created random path points"
       (World (rng_draws w + 18) (trace w))).

(** The events that end a call returning [path]. *)
Definition closing (path : list Cell) : list event :=
  match path with
  | [] => [Displayed "No path found!"]
  | _ :: _ => [Printed ("Reconstructed Path:  " ++ str_path path);
               Displayed "Path found!"]
  end.

(** The effects of a call as the specification words them: one message
    when the search starts, one when it ends, and nothing else. *)
Definition claimed_effects (w w' : world) : Prop :=
  (exists at_start at_end,
     trace w' = trace w ++ [Displayed at_start; Displayed at_end]) /\
  rng_draws w' = rng_draws w.

(** One round of the main loop that goes on. *)
Definition next_round {F : PyFloat} (grid : Grid) (end_ : Cell) (COL ROW : Z)
    (st st' : state) : Prop :=
  iteration grid end_ COL ROW st = Ok (Next st').

(** ** Invariants of the main loop *)

Section InvariantDefs.
Context {F : PyFloat}.
Variable grid : Grid.
Variables start end_ : Cell.
Variables COL ROW : Z.

(** The cells that can receive a g-score. *)
Definition cells : list Cell := start :: cprod (seqZ 0 COL) (seqZ 0 ROW).

Definition known (st : state) (c : Cell) : nat :=
  match g_scores st !! c with Some _ => 1 | None => 0 end.

Definition known_count (st : state) : nat := sum_list_with (known st) cells.

Definition pot (st : state) (c : Cell) : nat :=
  match g_scores st !! c with
  | Some v => Z.to_nat v
  | None => S (length cells)
  end.

Definition potential (st : state) : nat := sum_list_with (pot st) cells.

(** Strictly decreases in every round of the main loop. *)
Definition measure (st : state) : nat :=
  length (open_set st) + 2 * potential st.

(** What is known of a node [c] that sits in the open set with cost [g]. *)
Definition sound (st : state) (c : Cell) (g : Z) : Prop :=
  (c = start \/ is_Some (parents st !! c)) /\
  0 <= g /\ g + 1 <= Z.of_nat (known_count st) /\
  exists v, g_scores st !! c = Some v /\ v <= g.

Record basic (st : state) : Prop := {
  b_start : g_scores st !! start = Some 0;
  b_step : forall n c, parents st !! n = Some c -> is_step c n;
  b_free : forall n c, parents st !! n = Some c ->
    0 <= n.1 < COL /\ 0 <= n.2 < ROW /\ free grid n = true;
  b_link : forall n c, parents st !! n = Some c ->
    c = start \/ is_Some (parents st !! c);
  b_desc : forall n c, parents st !! n = Some c ->
    exists gn gc, g_scores st !! n = Some gn /\ g_scores st !! c = Some gc /\
                  gc + 1 <= gn;
  b_score : forall c v, g_scores st !! c = Some v ->
    0 <= v /\ v + 1 <= Z.of_nat (known_count st);
  b_open : forall e, e ∈ open_set st -> sound st (e_node e) (e_g e);
  b_key : forall e, e ∈ open_set st ->
    (e_f e = fzero /\ e_g e = 0 /\ e_node e = start) \/
    exists xg h, float_of_int (e_g e) = Some xg /\
                 heuristic (e_node e) end_ = Ok h /\ e_f e = fadd xg h
}.

(** The cells [l] visited by the path-reconstruction loop from [c], and
    the cell [r] at which the loop stops. *)
Inductive ancestry (ps : gmap Cell Cell) : Cell -> list Cell -> Cell -> Prop :=
| ancestry_root (c : Cell) :
    ps !! c = None -> ancestry ps c [] c
| ancestry_up (c p : Cell) (l : list Cell) (r : Cell) :
    ps !! c = Some p -> ancestry ps p l r -> ancestry ps c (c :: l) r.

(** Some open-set entry holds node [n] with cost [v]. *)
Definition pending (st : state) (n : Cell) (v : Z) : Prop :=
  exists e, e ∈ open_set st /\ e_node e = n /\ e_g e = v.

(** The walkable neighbours of [n] along the offsets [ds] have a
    g-score of at most [v + 1]. *)
Definition relaxed_by (st : state) (n : Cell) (v : Z) (ds : list (Z * Z)) : Prop :=
  forall d, d ∈ ds ->
    walkable grid COL ROW (n.1 + d.1, n.2 + d.2) = Ok true ->
    exists w, g_scores st !! (n.1 + d.1, n.2 + d.2) = Some w /\ w <= v + 1.

(** Every recorded g-score is either still waiting in the open set or
    has been propagated to the neighbours; the goal always waits. *)
Definition settled (st : state) : Prop :=
  forall n v, g_scores st !! n = Some v ->
    pending st n v \/ (n <> end_ /\ relaxed_by st n v movements).

(** The same while node [c], taken from the open set with cost [g], is
    being expanded and the offsets [ds] are done. *)
Definition settling (st : state) (c : Cell) (g : Z) (ds : list (Z * Z)) : Prop :=
  (forall n v, g_scores st !! n = Some v ->
     pending st n v \/ (n <> end_ /\ relaxed_by st n v movements) \/
     (n = c /\ v = g)) /\
  relaxed_by st c g ds.

(** How [search] ends when it leaves the loop in state [st]. *)
Definition finish (pfuel : nat) (st : state) (w w' : world)
    (r : res (list Cell)) : Prop :=
  (open_set st = [] /\ r = Ok [] /\ w' = display_message "No path found!" w) \/
  (open_set st <> [] /\ exists e,
     iteration grid end_ COL ROW st = Raise e /\ r = Raise e /\ w' = w) \/
  (open_set st <> [] /\ exists c st1 path,
     iteration grid end_ COL ROW st = Ok (Reached c st1) /\
     backtrack pfuel (parents st1) c [] = Some path /\
     r = Ok (rev (path ++ [start])) /\
     w' = display_message "Path found!"
            (print ("Reconstructed Path:  " ++ str_path (rev (path ++ [start]))) w)).

End InvariantDefs.

(** ** Sample inputs *)

Definition w0 : world := World 0 [].
Definition rnd0 : nat -> Z := fun i => Z.of_nat i.

Definition grid_open : Grid := [[1; 1; 1]; [1; 1; 1]; [1; 1; 1]].
Definition grid_wall : Grid := [[1; 1; 1]; [0; 0; 0]; [1; 1; 1]].
Definition grid_row : Grid := [[1; 1; 1; 1; 1]].
Definition grid_pair : Grid := [[1; 1]].
Definition grid_blocked_start : Grid := [[0; 1]].
Definition grid_blocked_goal : Grid := [[1; 0]].
Definition grid_blocked_first : Grid := [[0; 1; 1]].
Definition far_goal : Cell := (2 ^ 600, 0).
Definition free_route : list Cell := [(0, 0); (0, 1); (0, 2); (1, 2); (2, 2)].

(** The round goes on to another round. *)
Definition goes_on {F : PyFloat} (r : res round) : bool :=
  match r with Ok (Next _) => true | _ => false end.

(** ** Further notions *)

(** [<] is a strict partial order on the keys, and equal keys compare
    alike.  Keys may be incomparable, as NaN is. *)
Class FloatKeys (F : PyFloat) : Prop := {
  key_irrefl : forall x : float, flt x x = false;
  key_trans : forall x y z : float,
    flt x y = true -> flt y z = true -> flt x z = true;
  key_eq_lt : forall x y z : float,
    feq x y = true -> flt x z = flt y z
}.

(** The states that the main loop of a call visits. *)
Definition visited {F : PyFloat} (grid : Grid) (start end_ : Cell) (st : state) : Prop :=
  rtc (next_round grid end_ (height grid) (width grid)) (initial start) st.

(** The start has no parent, and every other cell with a g-score has
    one. *)
Definition rooted {F : PyFloat} (start : Cell) (st : state) : Prop :=
  parents st !! start = None /\
  forall n, n <> start -> is_Some (g_scores st !! n) -> is_Some (parents st !! n).

(** Every cell of the grid is Free. *)
Definition unobstructed (grid : Grid) : Prop :=
  forall c : Cell, in_grid grid c -> free grid c = true.

(** The same as a test on the rows. *)
Definition unobstructedb (grid : Grid) : bool :=
  forallb (forallb (Z.eqb 1)) grid.

(** The grid with every row cut to the length of the first one. *)
Definition trim (grid : Grid) : Grid :=
  take (Z.to_nat (width grid)) <$> grid.

(** The grid with [v] written into cell [c], when the grid has that
    cell. *)
Definition set_cell (grid : Grid) (c : Cell) (v : Z) : Grid :=
  if (0 <=? c.1) && (0 <=? c.2)
  then alter (fun row => <[Z.to_nat c.2 := v]> row) (Z.to_nat c.1) grid
  else grid.

(** No row is shorter than the first one. *)
Definition rows_cover (grid : Grid) : Prop :=
  0 < height grid <= max_size /\
  0 < width grid <= max_size /\
  Forall (fun row => width grid <= Z.of_nat (length row)) grid.

Definition rows_coverb (grid : Grid) : bool :=
  (0 <? height grid) && (height grid <=? max_size) &&
  (0 <? width grid) && (width grid <=? max_size) &&
  forallb (fun row => width grid <=? Z.of_nat (length row)) grid.

(** The squared distance that [heuristic] converts to a float. *)
Definition sq_dist (a b : Cell) : Z := (a.1 - b.1) ^ 2 + (a.2 - b.2) ^ 2.

Definition grid_jagged : Grid := [[1; 1; 1]; [1]].
Definition grid_wide_rows : Grid := [[1; 1]; [1; 1; 0]; [1; 1; 1; 1]].

(** ** The exact arithmetic satisfies the laws *)

Module ExactFacts.
Import Exact.

Lemma Zlt_IZR (a b : Z) : a < b <-> (IZR a < IZR b)%R.
Proof. split; [apply IZR_lt | apply lt_IZR]. Qed.

Lemma sqrt_clip (r : Z) : sqrt (IZR (Z.max 0 r)) = sqrt (IZR r).
Proof.
  destruct (Z.le_gt_cases 0 r) as [Hr | Hr].
  - by rewrite Z.max_r.
  - rewrite Z.max_l by lia.
    rewrite sqrt_0. symmetry. apply sqrt_neg_0.
    apply IZR_le. lia.
Qed.

Lemma cmp_nonneg (s1 s2 D : R) :
  (0 <= s1 -> 0 <= s2 -> 0 <= D ->
   (s1 < D + s2 <->
    (s1 * s1 - D * D - s2 * s2 < 0 \/
     (s1 * s1 - D * D - s2 * s2) * (s1 * s1 - D * D - s2 * s2)
       < 4 * D * D * (s2 * s2))))%R.
Proof.
  intros H1 H2 HD. split.
  - intros H.
    destruct (Rlt_le_dec (s1 * s1 - D * D - s2 * s2) 0) as [Hk | Hk];
      [left; exact Hk | right].
    assert (s1 * s1 - D * D - s2 * s2 < 2 * D * s2)%R by nra.
    assert (0 <= 2 * D * s2)%R by nra.
    nra.
  - intros [Hk | Hk]; [nra |].
    destruct (Rlt_le_dec s1 (D + s2)) as [? | Hge]; [assumption | exfalso].
    assert (2 * D * s2 <= s1 * s1 - D * D - s2 * s2)%R by nra.
    assert (0 <= 2 * D * s2)%R by nra.
    nra.
Qed.

Lemma cmp_neg (s1 s2 E : R) :
  (0 <= s1 -> 0 <= s2 -> 0 < E ->
   (s1 + E < s2 <->
    (0 < s2 * s2 - s1 * s1 - E * E /\
     4 * E * E * (s1 * s1)
       < (s2 * s2 - s1 * s1 - E * E) * (s2 * s2 - s1 * s1 - E * E))))%R.
Proof.
  intros H1 H2 HE. split.
  - intros H.
    assert (2 * E * s1 < s2 * s2 - s1 * s1 - E * E)%R by nra.
    assert (0 <= 2 * E * s1)%R by nra.
    split; nra.
  - intros [Hk Hq].
    destruct (Rlt_le_dec (s1 + E) s2) as [? | Hge]; [assumption | exfalso].
    assert (s2 * s2 - s1 * s1 - E * E <= 2 * E * s1)%R by nra.
    assert (0 <= 2 * E * s1)%R by nra.
    nra.
Qed.

(** The integer test decides the order of the real values. *)
Lemma ltb_spec (x y : num) : ltb x y = true <-> (value x < value y)%R.
Proof.
  destruct x as [a1 r1], y as [a2 r2]. unfold ltb, value. simpl.
  rewrite <- (sqrt_clip r1), <- (sqrt_clip r2).
  set (q1 := Z.max 0 r1). set (q2 := Z.max 0 r2).
  assert (Hq1 : (0 <= IZR q1)%R) by (apply IZR_le; unfold q1; lia).
  assert (Hq2 : (0 <= IZR q2)%R) by (apply IZR_le; unfold q2; lia).
  pose proof (sqrt_pos (IZR q1)) as Hs1.
  pose proof (sqrt_pos (IZR q2)) as Hs2.
  pose proof (sqrt_sqrt _ Hq1) as E1.
  pose proof (sqrt_sqrt _ Hq2) as E2.
  set (s1 := sqrt (IZR q1)) in *. set (s2 := sqrt (IZR q2)) in *.
  destruct (Z.leb_spec 0 (a2 - a1)) as [Hd | Hd].
  - rewrite orb_true_iff, !Z.ltb_lt, !Zlt_IZR.
    rewrite !mult_IZR, !minus_IZR, !mult_IZR, !minus_IZR, <- E1, <- E2.
    assert (HD : (0 <= IZR a2 - IZR a1)%R).
    { rewrite <- minus_IZR. by apply IZR_le. }
    rewrite <- (cmp_nonneg s1 s2 (IZR a2 - IZR a1) Hs1 Hs2 HD).
    split; intros; lra.
  - rewrite andb_true_iff, !Z.ltb_lt, !Zlt_IZR.
    rewrite !mult_IZR, !minus_IZR, !mult_IZR, !minus_IZR, <- E1, <- E2.
    assert (HE : (0 < IZR a1 - IZR a2)%R).
    { rewrite <- minus_IZR. apply IZR_lt. lia. }
    pose proof (cmp_neg s1 s2 (IZR a1 - IZR a2) Hs1 Hs2 HE) as C.
    split.
    + intros [K1 K2]. assert (s1 + (IZR a1 - IZR a2) < s2)%R; [| lra].
      apply C. split; [lra |]. nra.
    + intros H. assert (s1 + (IZR a1 - IZR a2) < s2)%R as H' by lra.
      apply C in H' as [K1 K2]. split; [lra |]. nra.
Qed.

Lemma ltb_false (x y : num) : ltb x y = false <-> (value y <= value x)%R.
Proof.
  split.
  - intros H. apply Rnot_lt_le. intros Hlt. apply ltb_spec in Hlt. congruence.
  - intros H. apply not_true_is_false. intros Hlt. apply ltb_spec in Hlt. lra.
Qed.

Lemma of_int_value (n : Z) (x : num) : of_int n = Some x -> x = Num n 0.
Proof. unfold of_int. case_match; congruence. Qed.

Lemma value_int_plus_root (g n : Z) :
  0 <= n -> value (add (Num g 0) (pow_half (Num n 0))) = (IZR g + sqrt (IZR n))%R.
Proof.
  intros Hn. unfold pow_half, add, value. simpl.
  destruct (Z.leb_spec 0 n); [| lia]. simpl.
  by rewrite Z.add_0_r.
Qed.

End ExactFacts.

Instance exact_eq : FloatEq exact_float.
Proof.
  intros x. simpl. unfold Exact.eqb.
  assert (Exact.ltb x x = false) as ->; [| done].
  apply ExactFacts.ltb_false. lra.
Qed.

Instance exact_range : FloatRange exact_float.
Proof.
  intros n Hn. simpl. unfold Exact.of_int, Exact.overflow_threshold.
  destruct (Z.ltb_spec (Z.abs n) (2 ^ 1024 - 2 ^ 970)) as [_ | Hge]; [by eexists |].
  exfalso. assert (2 ^ 1023 <= 2 ^ 1024 - 2 ^ 970); [| lia].
  change (2 ^ 1024) with (2 * 2 ^ 1023).
  assert (2 ^ 970 <= 2 ^ 1023) by (apply Z.pow_le_mono_r; lia).
  lia.
Qed.

Instance exact_order : FloatOrder exact_float.
Proof.
  split; simpl.
  - intros x. apply ExactFacts.ltb_false. lra.
  - intros x y z Hxy Hyz.
    apply ExactFacts.ltb_spec in Hxy, Hyz. apply ExactFacts.ltb_spec. lra.
  - intros x y z Hxy Hzy.
    apply ExactFacts.ltb_spec in Hxy. apply ExactFacts.ltb_false in Hzy.
    apply ExactFacts.ltb_spec. lra.
Qed.

Instance exact_admissible : FloatAdmissible exact_float.
Proof.
  split; simpl.
  - intros g n g' xg xn xg' x0 Hg Hn Hgg Hle E1 E2 E3 E4.
    apply ExactFacts.of_int_value in E1, E2, E3, E4. subst.
    apply ExactFacts.ltb_spec.
    rewrite !ExactFacts.value_int_plus_root by lia.
    rewrite sqrt_0.
    assert (sqrt (IZR n) <= IZR (g' - 1 - g))%R.
    { rewrite <- (sqrt_Rsqr (IZR (g' - 1 - g))) by (apply IZR_le; lia).
      apply sqrt_le_1_alt. unfold Rsqr. rewrite <- mult_IZR.
      apply IZR_le. lia. }
    rewrite !minus_IZR in *. lra.
  - intros g' xg' x0 Hg E1 E2.
    apply ExactFacts.of_int_value in E1, E2. subst.
    apply ExactFacts.ltb_spec.
    rewrite ExactFacts.value_int_plus_root by lia.
    unfold Exact.value. simpl. rewrite sqrt_0.
    apply IZR_lt in Hg. lra.
Qed.



(** ** Range and equality of binary64 floats *)

Module Binary64Facts.
Import Binary64.

Lemma digits2_pos_bounds (p : positive) :
  2 ^ (Z.pos (digits2_pos p) - 1) <= Z.pos p < 2 ^ Z.pos (digits2_pos p).
Proof.
  induction p as [p IH | p IH |]; simpl digits2_pos.
  - rewrite Pos2Z.inj_succ. replace (Z.succ (Z.pos (digits2_pos p)) - 1) with (Z.succ (Z.pos (digits2_pos p) - 1)) by lia.
    rewrite !Z.pow_succ_r by lia. lia.
  - rewrite Pos2Z.inj_succ. replace (Z.succ (Z.pos (digits2_pos p)) - 1) with (Z.succ (Z.pos (digits2_pos p) - 1)) by lia.
    rewrite !Z.pow_succ_r by lia. lia.
  - simpl. lia.
Qed.

Lemma Zdigits2_nonneg (m : Z) : 0 <= Zdigits2 m.
Proof. destruct m; simpl; lia. Qed.

Lemma Zdigits2_le (m k : Z) : 0 <= m < 2 ^ k -> 0 <= k -> Zdigits2 m <= k.
Proof.
  intros [H0 H1] Hk. destruct m as [| p | p]; simpl; [lia | | lia].
  destruct (Z.le_gt_cases (Z.pos (digits2_pos p)) k) as [? | Hgt]; [done |].
  pose proof (digits2_pos_bounds p) as [Hlo _].
  assert (2 ^ k <= 2 ^ (Z.pos (digits2_pos p) - 1)) by (apply Z.pow_le_mono_r; lia).
  lia.
Qed.

Lemma Zdigits2_lt_pow (m : Z) : 0 <= m -> m < 2 ^ Zdigits2 m.
Proof.
  destruct m as [| p | p]; simpl; [lia | | lia]. intros _.
  apply digits2_pos_bounds.
Qed.

Lemma shr_1_m (mrs : shr_record) :
  0 <= shr_m mrs -> shr_m (shr_1 mrs) = shr_m mrs / 2.
Proof.
  destruct mrs as [m r s]. simpl. intros Hm.
  destruct m as [| [p | p |] | p]; cbn [shr_1 shr_m].
  - reflexivity.
  - apply Z.div_unique with 1; [lia |]. rewrite Pos2Z.inj_xI. lia.
  - apply Z.div_unique with 0; [lia |]. rewrite Pos2Z.inj_xO. lia.
  - reflexivity.
  - lia.
Qed.

Lemma pow2_xI (p : positive) : 2 ^ Z.pos p~1 = 2 * 2 ^ Z.pos p * 2 ^ Z.pos p.
Proof.
  rewrite <- (Z.pow_1_r 2) at 2.
  rewrite <- !Z.pow_add_r by lia. f_equal. lia.
Qed.

Lemma pow2_xO (p : positive) : 2 ^ Z.pos p~0 = 2 ^ Z.pos p * 2 ^ Z.pos p.
Proof. rewrite <- Z.pow_add_r by lia. f_equal. lia. Qed.

Lemma iter_pos_shr_m (p : positive) (mrs : shr_record) :
  0 <= shr_m mrs -> shr_m (SpecFloat.iter_pos shr_1 p mrs) = shr_m mrs / 2 ^ Z.pos p.
Proof.
  revert mrs. induction p as [p IH | p IH |]; intros mrs Hm; simpl SpecFloat.iter_pos.
  - assert (Hp : 0 < 2 ^ Z.pos p) by (apply Z.pow_pos_nonneg; lia).
    assert (H1 : 0 <= shr_m (shr_1 mrs)) by (rewrite shr_1_m by done; apply Z.div_pos; lia).
    assert (H2 : 0 <= shr_m (SpecFloat.iter_pos shr_1 p (shr_1 mrs)))
      by (rewrite IH by done; apply Z.div_pos; lia).
    rewrite IH, IH, shr_1_m by done.
    rewrite pow2_xI, !Z.div_div by lia. f_equal. lia.
  - assert (Hp : 0 < 2 ^ Z.pos p) by (apply Z.pow_pos_nonneg; lia).
    assert (H2 : 0 <= shr_m (SpecFloat.iter_pos shr_1 p mrs))
      by (rewrite IH by done; apply Z.div_pos; lia).
    rewrite IH, IH by done. rewrite pow2_xO, !Z.div_div by lia. f_equal.
  - rewrite shr_1_m by done. reflexivity.
Qed.

Lemma shr_record_of_loc_m m l : shr_m (shr_record_of_loc m l) = m.
Proof. destruct l as [| []]; reflexivity. Qed.


Lemma fexp_ge (e : Z) : e - 53 <= fexp prec emax e /\ -1074 <= fexp prec emax e.
Proof. unfold fexp, emin, prec, emax. lia. Qed.

Lemma fexp_eq (e : Z) : fexp prec emax e = Z.max (e - 53) (-1074).
Proof. unfold fexp, emin, prec, emax. lia. Qed.

Lemma shr_snd (mrs : shr_record) (e n : Z) : snd (shr mrs e n) = e + Z.max 0 n.
Proof. destruct n; simpl; lia. Qed.

Lemma shr_fst_m (mrs : shr_record) (e n : Z) :
  0 <= shr_m mrs ->
  shr_m (fst (shr mrs e n)) = shr_m mrs / 2 ^ Z.max 0 n.
Proof.
  intros Hm. destruct n as [| p | p]; simpl fst.
  - simpl. by rewrite Z.div_1_r.
  - rewrite iter_pos_shr_m by done. f_equal.
  - simpl. by rewrite Z.div_1_r.
Qed.

Lemma div_pow_lt (m D n : Z) :
  0 <= m < 2 ^ D -> 0 <= n -> 0 <= D - n -> m / 2 ^ n < 2 ^ (D - n).
Proof.
  intros [H0 H1] Hn HD. apply Z.div_lt_upper_bound; [apply Z.pow_pos_nonneg; lia |].
  rewrite <- Z.pow_add_r by lia. replace (n + (D - n)) with D by lia. done.
Qed.

Lemma shr_fexp_snd (m e : Z) (l : location) :
  snd (shr_fexp prec emax m e l) = Z.max e (fexp prec emax (Zdigits2 m + e)).
Proof. unfold shr_fexp. rewrite shr_snd. lia. Qed.

Lemma shr_fexp_m (m e : Z) (l : location) :
  0 <= m ->
  0 <= shr_m (fst (shr_fexp prec emax m e l)) < 2 ^ 53.
Proof.
  intros Hm. unfold shr_fexp.
  rewrite shr_fst_m by (by rewrite shr_record_of_loc_m).
  rewrite shr_record_of_loc_m.
  set (n := fexp prec emax (Zdigits2 m + e) - e).
  pose proof (fexp_ge (Zdigits2 m + e)) as [Hf _].
  pose proof (Zdigits2_nonneg m) as HD.
  pose proof (Zdigits2_lt_pow m Hm) as Hlt.
  assert (Hp : 0 < 2 ^ Z.max 0 n) by (apply Z.pow_pos_nonneg; lia).
  split; [apply Z.div_pos; lia |].
  destruct (Z.le_gt_cases (Zdigits2 m) (Z.max 0 n)) as [Hle | Hgt].
  - rewrite Z.div_small; [lia |]. split; [lia |].
    assert (2 ^ Zdigits2 m <= 2 ^ Z.max 0 n) by (apply Z.pow_le_mono_r; lia). lia.
  - assert (m / 2 ^ Z.max 0 n < 2 ^ (Zdigits2 m - Z.max 0 n)) by (apply div_pow_lt; lia).
    assert (2 ^ (Zdigits2 m - Z.max 0 n) <= 2 ^ 53) by (apply Z.pow_le_mono_r; lia).
    lia.
Qed.

Lemma round_nearest_even_bounds (m : Z) (l : location) :
  m <= round_nearest_even m l <= m + 1.
Proof. destruct l as [| []]; simpl; try lia. destruct (Z.even m); lia. Qed.

(** Rounding a mantissa overflows only from a large exponent. *)
Lemma binary_round_aux_finite (sx : bool) (mx : positive) (ex : Z) :
  Z.max ex (fexp prec emax (Z.pos (digits2_pos mx) + ex)) <= 970 ->
  forall s, binary_round_aux prec emax sx (Z.pos mx) ex loc_Exact <> S754_infinity s.
Proof.
  intros He s. unfold binary_round_aux.
  destruct (shr_fexp prec emax (Z.pos mx) ex loc_Exact) as [mrs' e'] eqn:E1.
  pose proof (shr_fexp_snd (Z.pos mx) ex loc_Exact) as S1. rewrite E1 in S1. cbn [snd] in S1.
  pose proof (shr_fexp_m (Z.pos mx) ex loc_Exact ltac:(lia)) as M1. rewrite E1 in M1. cbn [fst] in M1.
  set (m1 := round_nearest_even (shr_m mrs') (loc_of_shr_record mrs')).
  pose proof (round_nearest_even_bounds (shr_m mrs') (loc_of_shr_record mrs')) as R. fold m1 in R.
  destruct (shr_fexp prec emax m1 e' loc_Exact) as [mrs'' e''] eqn:E2.
  pose proof (shr_fexp_snd m1 e' loc_Exact) as S2. rewrite E2 in S2. cbn [snd] in S2.
  assert (Hd : Zdigits2 m1 <= 54).
  { apply Zdigits2_le; [| lia]. change (2 ^ 54) with (2 * 2 ^ 53). lia. }
  pose proof (fexp_ge (Z.pos (digits2_pos mx) + ex)) as [_ Hmin].
  rewrite fexp_eq in S2.
  assert (e'' <= 971) by (change (Zdigits2 (Z.pos mx)) with (Z.pos (digits2_pos mx)) in S1; lia).
  destruct (shr_m mrs'') as [| m | m]; [done | | done].
  destruct (Z.leb_spec e'' (emax - prec)); [done |]. unfold emax, prec in *. lia.
Qed.

Lemma digits_shift (mx d : positive) :
  digits2_pos (Pos.iter xO mx d) = (digits2_pos mx + d)%positive.
Proof.
  induction d as [| d IH] using Pos.peano_ind.
  - simpl. lia.
  - rewrite Pos.iter_succ. simpl. rewrite IH. lia.
Qed.

Lemma binary_normalize_finite (n : Z) (s : bool) :
  Z.abs n < 2 ^ 1023 -> binary_normalize prec emax n 0 false <> S754_infinity s.
Proof.
  intros Hn.
  assert (H : forall sx mx, Z.pos mx < 2 ^ 1023 ->
                binary_round prec emax sx mx 0 <> S754_infinity s).
  { intros sx mx Hmx. unfold binary_round, shl_align.
    assert (Hd : Z.pos (digits2_pos mx) <= 1023).
    { apply (Zdigits2_le (Z.pos mx)); lia. }
    rewrite Z.add_0_r, Z.sub_0_r.
    pose proof (fexp_eq (Z.pos (digits2_pos mx))) as Ef.
    destruct (fexp prec emax (Z.pos (digits2_pos mx))) as [| p | p] eqn:E.
    - apply binary_round_aux_finite. rewrite Z.add_0_r, E. lia.
    - apply binary_round_aux_finite. rewrite Z.add_0_r, E. lia.
    - apply binary_round_aux_finite. rewrite digits_shift.
      rewrite fexp_eq. lia. }
  destruct n as [| p | p]; simpl; [done | apply H; lia | apply H; lia].
Qed.

End Binary64Facts.

Instance binary64_range : FloatRange binary64.
Proof.
  intros n Hn. simpl. unfold Binary64.of_int.
  pose proof (Binary64Facts.binary_normalize_finite n) as H.
  destruct (binary_normalize Binary64.prec Binary64.emax n 0 false) as [s | s | | s m e];
    try by eexists.
  by destruct (H s Hn).
Qed.


Instance binary64_eq : FloatEq binary64.
Proof.
  intros x. simpl. unfold Binary64.eqb, SFeqb.
  destruct x as [s | s | | s m e]; simpl; try reflexivity.
  - destruct s; reflexivity.
  - change (PosDef.Pos.compare_cont Eq m m) with (Pos.compare m m).
    rewrite Z.compare_refl, Pos.compare_refl. destruct s; reflexivity.
Qed.

(** ** Elementary facts on the list operations *)

Section Basics.
Context {F : PyFloat}.

Lemma cell_eqb_eq (a b : Cell) : cell_eqb a b = true <-> a = b.
Proof.
  destruct a as [a1 a2], b as [b1 b2]. unfold cell_eqb. simpl.
  rewrite andb_true_iff, !Z.eqb_eq. split; [intros [-> ->] | intros [= -> ->]]; done.
Qed.

Lemma cell_eqb_refl (a : Cell) : cell_eqb a a = true.
Proof. by apply cell_eqb_eq. Qed.

Lemma entry_eqb_same (x y : entry) :
  entry_eqb y x = true -> e_g y = e_g x /\ e_node y = e_node x.
Proof.
  unfold entry_eqb. rewrite !andb_true_iff, Z.eqb_eq, cell_eqb_eq. tauto.
Qed.

Lemma entry_eqb_refl `{!FloatEq F} (x : entry) : entry_eqb x x = true.
Proof.
  unfold entry_eqb. rewrite feq_refl, Z.eqb_refl, cell_eqb_refl. simpl.
  destruct (e_parent x); [apply cell_eqb_refl | done].
Qed.

Lemma min_from_elem (best : entry) (l : list entry) :
  min_from best l = best \/ min_from best l ∈ l.
Proof.
  revert best. induction l as [| x l IH]; intros best; simpl; [by left |].
  destruct (IH (if flt (e_f x) (e_f best) then x else best)) as [E | E].
  - rewrite E. destruct (flt _ _); [right; left | by left].
  - right. by right.
Qed.

Lemma py_min_elem (l : list entry) (m : entry) : py_min l = Ok m -> m ∈ l.
Proof.
  destruct l as [| x l]; simpl; [done |]. intros [= <-].
  destruct (min_from_elem x l) as [-> | H]; [left | by right].
Qed.

Lemma py_min_nonempty (l : list entry) :
  l <> [] -> exists m, py_min l = Ok m.
Proof. destruct l; [done |]. by eexists. Qed.

Lemma py_remove_split (x : entry) (l l' : list entry) :
  py_remove x l = Ok l' ->
  exists l1 y l2, l = l1 ++ y :: l2 /\ l' = l1 ++ l2 /\ entry_eqb y x = true.
Proof.
  revert l'. induction l as [| y l IH]; intros l'; simpl; [done |].
  destruct (entry_eqb y x) eqn:E.
  - intros [= <-]. by exists [], y, l.
  - destruct (py_remove x l) as [l'' |]; simpl; [| done]. intros [= <-].
    destruct (IH l'' eq_refl) as (l1 & z & l2 & -> & -> & Hz).
    by exists (y :: l1), z, l2.
Qed.

Lemma py_remove_found (x : entry) (l : list entry) :
  (exists y, y ∈ l /\ entry_eqb y x = true) -> exists l', py_remove x l = Ok l'.
Proof.
  intros (y & Hy & E). induction l as [| z l IH]; [by apply not_elem_of_nil in Hy |].
  simpl. destruct (entry_eqb z x) eqn:Ez; [by eexists |].
  apply elem_of_cons in Hy as [-> | Hy]; [congruence |].
  destruct (IH Hy) as [l' ->]. by eexists.
Qed.

Lemma py_remove_length (x : entry) (l l' : list entry) :
  py_remove x l = Ok l' -> length l = S (length l').
Proof.
  intros H. apply py_remove_split in H as (l1 & y & l2 & -> & -> & _).
  rewrite !length_app. simpl. lia.
Qed.

Lemma py_remove_subset (x : entry) (l l' : list entry) :
  py_remove x l = Ok l' -> l' ⊆ l.
Proof.
  intros H. apply py_remove_split in H as (l1 & y & l2 & -> & -> & _).
  intros e. rewrite !elem_of_app, elem_of_cons. tauto.
Qed.

Lemma movements_nonzero (c : Cell) (d : Z * Z) :
  d ∈ movements -> (c.1 + d.1, c.2 + d.2) <> c.
Proof.
  destruct c as [c1 c2]. unfold movements. rewrite !elem_of_cons, elem_of_nil.
  intros [-> | [-> | [-> | [-> | []]]]]; simpl; intros [= ? ?]; lia.
Qed.

Lemma is_step_move (c : Cell) (d : Z * Z) :
  d ∈ movements -> is_step c (c.1 + d.1, c.2 + d.2).
Proof.
  intros Hd. unfold is_step. simpl.
  replace (c.1 + d.1 - c.1, c.2 + d.2 - c.2) with d; [done |].
  destruct d. simpl. f_equal; lia.
Qed.

End Basics.

(** ** The invariants are kept *)

Section Invariants.
Context {F : PyFloat}.
Variable grid : Grid.
Variables start end_ : Cell.
Variables COL ROW : Z.


Lemma sum_list_with_le {A} (f g : A -> nat) (l : list A) :
  (forall x, x ∈ l -> (f x <= g x)%nat) ->
  (sum_list_with f l <= sum_list_with g l)%nat.
Proof.
  induction l as [| a l IH]; intros H; simpl; [done |].
  pose proof (H a (list_elem_of_here _ _)).
  assert (sum_list_with f l <= sum_list_with g l)%nat; [| lia].
  apply IH. intros x Hx. apply H. by right.
Qed.

Lemma sum_list_with_lt {A} (f g : A -> nat) (l : list A) (x0 : A) :
  (forall x, x ∈ l -> (f x <= g x)%nat) ->
  x0 ∈ l -> (f x0 < g x0)%nat ->
  (sum_list_with f l < sum_list_with g l)%nat.
Proof.
  induction l as [| a l IH]; intros H Hx0 Hlt; [by apply not_elem_of_nil in Hx0 |].
  simpl. pose proof (H a (list_elem_of_here _ _)).
  assert (Hl : forall x, x ∈ l -> (f x <= g x)%nat) by (intros x Hx; apply H; by right).
  apply elem_of_cons in Hx0 as [<- | Hx0].
  - pose proof (sum_list_with_le f g l Hl). lia.
  - pose proof (IH Hl Hx0 Hlt). lia.
Qed.

Lemma sum_list_with_const {A} (l : list A) :
  sum_list_with (fun _ => 1%nat) l = length l.
Proof. induction l; simpl; lia. Qed.

Lemma known_count_le (st : state) :
  (known_count start COL ROW st <= length (cells start COL ROW))%nat.
Proof.
  unfold known_count. rewrite <- (sum_list_with_const (cells start COL ROW)).
  apply sum_list_with_le. intros x _. unfold known. destruct (g_scores st !! x); lia.
Qed.

Lemma elem_of_cells (c : Cell) :
  c ∈ cells start COL ROW <-> c = start \/ (0 <= c.1 < COL /\ 0 <= c.2 < ROW).
Proof.
  unfold cells. rewrite elem_of_cons, list_elem_of_cprod, !elem_of_seqZ.
  split; (intros [? | ?]; [by left | right; lia]).
Qed.

Lemma py_index_nonneg {A} (l : list A) (i : Z) (x : A) :
  0 <= i -> py_index l i = Ok x -> l !! Z.to_nat i = Some x.
Proof.
  intros Hi. unfold py_index.
  destruct (Z.leb_spec 0 i); [| lia].
  destruct (Z.ltb_spec i (Z.of_nat (length l))); simpl.
  - destruct (l !! Z.to_nat i); [congruence | done].
  - destruct (Z.ltb_spec i 0); [lia |]. rewrite andb_false_r. done.
Qed.

Lemma walkable_true (n : Cell) :
  walkable grid COL ROW n = Ok true ->
  0 <= n.1 < COL /\ 0 <= n.2 < ROW /\ free grid n = true.
Proof.
  unfold walkable, free.
  destruct (Z.leb_spec 0 n.1), (Z.ltb_spec n.1 COL), (Z.leb_spec 0 n.2),
    (Z.ltb_spec n.2 ROW); simpl; try done.
  destruct (py_index grid n.1) as [row |] eqn:E1; simpl; [| done].
  destruct (py_index row n.2) as [v |] eqn:E2; simpl; [| done].
  apply py_index_nonneg in E1, E2; [| done | done]. rewrite E1, E2.
  intros [= ->]. repeat split; lia.
Qed.

Lemma relax_inv (c : Cell) (g : Z) (n : Cell) (st st' : state) :
  relax end_ c g n st = Ok st' ->
  (improves (g + 1) n st = false /\ st' = st) \/
  (improves (g + 1) n st = true /\
   exists h x, heuristic n end_ = Ok h /\ float_of_int (g + 1) = Some x /\
     st' = State (open_set st ++ [Entry (fadd x h) (g + 1) n (Some c)])
                 (<[n := g + 1]> (g_scores st)) (<[n := c]> (parents st))).
Proof.
  unfold relax. destruct (improves (g + 1) n st); [| intros [= <-]; by left].
  destruct (heuristic n end_) as [h |]; simpl; [| done].
  unfold int_to_float. destruct (float_of_int (g + 1)) as [x |]; simpl; [| done].
  intros [= <-]. right. split; [done |]. by exists h, x.
Qed.

Local Abbreviation walkable' := (walkable grid COL ROW).
Local Abbreviation relax' := (relax end_).
Local Abbreviation expand' := (expand grid end_ COL ROW).
Local Abbreviation iteration' := (iteration grid end_ COL ROW).
Local Abbreviation cells' := (cells start COL ROW).
Local Abbreviation known_count' := (known_count start COL ROW).
Local Abbreviation potential' := (potential start COL ROW).
Local Abbreviation measure' := (measure start COL ROW).
Local Abbreviation sound' := (sound start COL ROW).
Local Abbreviation basic' := (basic grid start end_ COL ROW).
Local Abbreviation settled' := (settled grid end_ COL ROW).
Local Abbreviation settling' := (settling grid end_ COL ROW).
Local Abbreviation relaxed_by' := (relaxed_by grid COL ROW).

(** Induction over the offsets handled by [expand]. *)
Lemma expand_inv (P : list (Z * Z) -> state -> Prop) (c : Cell) (g : Z) :
  (forall ds d st, d ∈ movements -> P ds st ->
     walkable' (c.1 + d.1, c.2 + d.2) = Ok false -> P (ds ++ [d]) st) ->
  (forall ds d st st', d ∈ movements -> P ds st ->
     walkable' (c.1 + d.1, c.2 + d.2) = Ok true ->
     relax' c g (c.1 + d.1, c.2 + d.2) st = Ok st' -> P (ds ++ [d]) st') ->
  forall moves ds st st', moves ⊆ movements -> P ds st ->
    expand' c g moves st = Ok st' -> P (ds ++ moves) st'.
Proof.
  intros Hskip Hrelax. induction moves as [| [dx dy] moves IH]; intros ds st st' Hsub HP.
  - simpl. intros [= <-]. by rewrite app_nil_r.
  - simpl. assert (Hd : (dx, dy) ∈ movements) by (apply Hsub; left).
    assert (Hsub' : moves ⊆ movements) by (intros x Hx; apply Hsub; by right).
    destruct (walkable' (c.1 + dx, c.2 + dy)) as [[|] |] eqn:W; simpl; [| | done].
    + destruct (relax' c g (c.1 + dx, c.2 + dy) st) as [st1 |] eqn:R;
        simpl; [| done].
      intros E. change ((dx, dy) :: moves) with ([(dx, dy)] ++ moves).
      rewrite (assoc_L (++) ds [(dx, dy)] moves).
      apply (IH _ st1 st' Hsub'); [| done].
      by apply (Hrelax ds (dx, dy) st st1).
    + intros E. change ((dx, dy) :: moves) with ([(dx, dy)] ++ moves).
      rewrite (assoc_L (++) ds [(dx, dy)] moves).
      apply (IH _ st st' Hsub'); [| done].
      by apply (Hskip ds (dx, dy) st).
Qed.

Lemma expand_preserves (P : state -> Prop) (c : Cell) (g : Z) :
  (forall d st st', d ∈ movements -> P st ->
     walkable' (c.1 + d.1, c.2 + d.2) = Ok true ->
     relax' c g (c.1 + d.1, c.2 + d.2) st = Ok st' -> P st') ->
  forall st st', P st -> expand' c g movements st = Ok st' -> P st'.
Proof.
  intros H st st' HP E.
  apply (expand_inv (fun _ => P) c g) with (moves := movements) (ds := []) (st := st);
    [done | | done | done | done].
  intros ds d st0 st1 Hd HP0 W R. by apply (H d st0 st1).
Qed.

(** *** The basic invariant *)

Lemma known_count_mono (st st' : state) :
  (forall c, is_Some (g_scores st !! c) -> is_Some (g_scores st' !! c)) ->
  (known_count' st <= known_count' st')%nat.
Proof.
  intros H. apply sum_list_with_le. intros c _. unfold known.
  destruct (g_scores st !! c) eqn:E; [| lia].
  destruct (H c) as [? ->]; [by eexists | lia].
Qed.

Lemma known_count_grow (st st' : state) (n : Cell) :
  (forall c, is_Some (g_scores st !! c) -> is_Some (g_scores st' !! c)) ->
  n ∈ cells' -> g_scores st !! n = None -> is_Some (g_scores st' !! n) ->
  (known_count' st < known_count' st')%nat.
Proof.
  intros H Hn E [v E']. apply sum_list_with_lt with (x0 := n); [| done |].
  - intros c _. unfold known.
    destruct (g_scores st !! c) eqn:Ec; [| lia].
    destruct (H c) as [? ->]; [by eexists | lia].
  - unfold known. rewrite E, E'. lia.
Qed.

Lemma basic_initial : basic' (initial start).
Proof.
  assert (K : (1 <= known_count' (initial start))%nat).
  { unfold known_count, cells. simpl. unfold known at 1. simpl.
    rewrite lookup_singleton_eq. lia. }
  split; simpl.
  - apply lookup_singleton_eq.
  - intros n c. by rewrite lookup_empty.
  - intros n c. by rewrite lookup_empty.
  - intros n c. by rewrite lookup_empty.
  - intros n c. by rewrite lookup_empty.
  - intros c v [<- <-]%lookup_singleton_Some. lia.
  - intros e ->%list_elem_of_singleton. simpl. split; [by left |].
    split; [lia |]. split; [lia |]. exists 0. split; [apply lookup_singleton_eq | lia].
  - intros e ->%list_elem_of_singleton. simpl. by left.
Qed.

Lemma basic_subset (st : state) (l : list entry) :
  basic' st -> l ⊆ open_set st -> basic' (State l (g_scores st) (parents st)).
Proof.
  intros B Hl. destruct B. split; simpl; try done.
  - intros e He. by apply (b_open0 e), Hl.
  - intros e He. by apply (b_key0 e), Hl.
Qed.

Lemma basic_relax (st st' : state) (c : Cell) (g : Z) (d : Z * Z) :
  basic' st -> sound' st c g -> d ∈ movements ->
  walkable' (c.1 + d.1, c.2 + d.2) = Ok true ->
  relax' c g (c.1 + d.1, c.2 + d.2) st = Ok st' ->
  basic' st' /\ sound' st' c g.
Proof.
  intros B S Hd W R. set (n := (c.1 + d.1, c.2 + d.2)) in *.
  apply relax_inv in R as [[_ ->] | (I & h & x & Hh & Hx & ->)]; [done |].
  destruct S as (Sl & Sg & Sk & v & Sv & Svg).
  pose proof (walkable_true _ W) as (Hn1 & Hn2 & Hfree).
  assert (Hnc : n <> c) by by apply movements_nonzero.
  assert (Hns : n <> start).
  { intros E. unfold improves in I. rewrite E, (b_start _ _ _ _ _ _ B) in I.
    apply Z.ltb_lt in I. lia. }
  assert (Hcell : n ∈ cells') by (apply elem_of_cells; by right).
  set (st' := State _ _ _).
  assert (Hext : forall a, is_Some (g_scores st !! a) -> is_Some (g_scores st' !! a)).
  { intros a Ha. simpl. apply lookup_insert_is_Some.
    destruct (decide (n = a)); [by left | by right]. }
  pose proof (known_count_mono _ _ Hext) as Hmono.
  assert (Hnew : g + 2 <= Z.of_nat (known_count' st')).
  { destruct (g_scores st !! n) as [old |] eqn:En.
    - unfold improves in I. rewrite En in I. apply Z.ltb_lt in I.
      apply (b_score _ _ _ _ _ _ B) in En. lia.
    - assert (known_count' st < known_count' st')%nat; [| lia].
      apply known_count_grow with (n := n); [done | done | done |].
      simpl. rewrite lookup_insert_eq. by eexists. }
  assert (Hold : forall old, g_scores st !! n = Some old -> g + 1 < old).
  { intros old En. unfold improves in I. rewrite En in I. by apply Z.ltb_lt in I. }
  assert (Hpar : forall a, a = start \/ is_Some (parents st !! a) ->
                           a = start \/ is_Some (parents st' !! a)).
  { intros a [-> | Ha]; [by left | right]. simpl. apply lookup_insert_is_Some.
    destruct (decide (n = a)); [by left | by right]. }
  assert (Hsound : forall a ga, sound' st a ga -> sound' st' a ga).
  { intros a ga (Al & Ag & Ak & va & Av & Avg).
    split; [by apply Hpar |]. split; [done |]. split; [lia |].
    simpl. destruct (decide (n = a)) as [<- | Hna].
    - exists (g + 1). rewrite lookup_insert_eq. split; [done |].
      apply Hold in Av. lia.
    - exists va. by rewrite lookup_insert_ne. }
  split.
  - split; simpl.
    + rewrite lookup_insert_ne by done. apply (b_start _ _ _ _ _ _ B).
    + intros a b [[<- <-] | [_ E]]%lookup_insert_Some.
      * by apply is_step_move.
      * by apply (b_step _ _ _ _ _ _ B) in E.
    + intros a b [[<- <-] | [_ E]]%lookup_insert_Some.
      * done.
      * by apply (b_free _ _ _ _ _ _ B) in E.
    + intros a b [[<- <-] | [_ E]]%lookup_insert_Some.
      * by apply (Hpar c).
      * apply (Hpar b). by apply (b_link _ _ _ _ _ _ B) in E.
    + intros a b [[<- <-] | [Hna E]]%lookup_insert_Some.
      * exists (g + 1), v. rewrite lookup_insert_eq, lookup_insert_ne by done.
        split; [done |]. split; [done |]. lia.
      * destruct (b_desc _ _ _ _ _ _ B _ _ E) as (ga & gb & Ea & Eb & Hle).
        rewrite (lookup_insert_ne _ n a) by done.
        destruct (decide (n = b)) as [<- | Hnb].
        -- exists ga, (g + 1). rewrite lookup_insert_eq.
           split; [done |]. split; [done |]. apply Hold in Eb. lia.
        -- exists ga, gb. by rewrite lookup_insert_ne.
    + intros a va [[<- <-] | [_ E]]%lookup_insert_Some.
      * lia.
      * apply (b_score _ _ _ _ _ _ B) in E. lia.
    + intros e [He | ->%list_elem_of_singleton]%elem_of_app.
      * apply Hsound. by apply (b_open _ _ _ _ _ _ B).
      * unfold sound. simpl.
        split; [right; rewrite lookup_insert_eq; by eexists |].
        split; [lia |]. split; [lia |].
        exists (g + 1). by rewrite lookup_insert_eq.
    + intros e [He | ->%list_elem_of_singleton]%elem_of_app.
      * by apply (b_key _ _ _ _ _ _ B).
      * simpl. right. by exists x, h.
  - apply Hsound. split; [done |]. split; [done |]. split; [done |]. by exists v.
Qed.

(** *** The measure decreases *)

Lemma measure_relax (st st' : state) (c : Cell) (g : Z) (d : Z * Z) :
  basic' st -> sound' st c g -> d ∈ movements ->
  walkable' (c.1 + d.1, c.2 + d.2) = Ok true ->
  relax' c g (c.1 + d.1, c.2 + d.2) st = Ok st' ->
  (measure' st' <= measure' st)%nat.
Proof.
  intros B S Hd W R. set (n := (c.1 + d.1, c.2 + d.2)) in *.
  apply relax_inv in R as [[_ ->] | (I & h & x & Hh & Hx & ->)]; [done |].
  destruct S as (Sl & Sg & Sk & v & Sv & Svg).
  pose proof (walkable_true _ W) as (Hn1 & Hn2 & Hfree).
  assert (Hcell : n ∈ cells') by (apply elem_of_cells; by right).
  pose proof (known_count_le st) as Hk.
  set (st' := State _ _ _).
  assert (potential' st' < potential' st)%nat;
    [| unfold measure; simpl; rewrite length_app; simpl; lia].
  apply sum_list_with_lt with (x0 := n); [| done |].
  - intros a _. unfold pot. cbn [g_scores st']. destruct (decide (n = a)) as [<- | Hna].
    + rewrite lookup_insert_eq. unfold improves in I.
      destruct (g_scores st !! n) as [old |]; [| lia].
      apply Z.ltb_lt in I. lia.
    + by rewrite lookup_insert_ne.
  - unfold pot. cbn [g_scores st']. rewrite lookup_insert_eq. unfold improves in I.
    destruct (g_scores st !! n) as [old |]; [| lia].
    apply Z.ltb_lt in I. lia.
Qed.

Lemma iteration_inv (st : state) (r : round) :
  iteration' st = Ok r ->
  exists cur open',
    py_min (open_set st) = Ok cur /\ py_remove cur (open_set st) = Ok open' /\
    ((e_node cur = end_ /\
      r = Reached (e_node cur) (State open' (g_scores st) (parents st))) \/
     (e_node cur <> end_ /\ exists st',
        expand' (e_node cur) (e_g cur) movements
          (State open' (g_scores st) (parents st)) = Ok st' /\
        r = Next st')).
Proof.
  unfold iteration. intros H.
  destruct (py_min (open_set st)) as [cur |] eqn:Hmin; cbn [res_bind] in H;
    [| discriminate].
  destruct (py_remove cur (open_set st)) as [open' |] eqn:Hrem; cbn [res_bind] in H;
    [| discriminate].
  exists cur, open'. split; [done |]. split; [done |].
  destruct (cell_eqb (e_node cur) end_) eqn:E.
  - apply cell_eqb_eq in E. injection H as <-. by left.
  - right. split; [intros E'; apply cell_eqb_eq in E'; congruence |].
    destruct (expand' _ _ _ _) as [st' |]; cbn [res_bind] in H; [| discriminate].
    injection H as <-. by exists st'.
Qed.

(** One more round keeps the invariant and lowers the measure. *)
Lemma iteration_next (st st' : state) :
  basic' st -> iteration' st = Ok (Next st') ->
  basic' st' /\ (measure' st' < measure' st)%nat.
Proof.
  intros B It.
  apply iteration_inv in It as (cur & open' & Hmin & Hrem & [[_ [=]] | (Hne & st1 & E & [= ->])]).
  pose proof (py_min_elem _ _ Hmin) as Hcur.
  pose proof (b_open _ _ _ _ _ _ B _ Hcur) as S.
  pose proof (basic_subset _ _ B (py_remove_subset _ _ _ Hrem)) as B1.
  pose proof (py_remove_length _ _ _ Hrem) as Hlen.
  set (st0 := State open' (g_scores st) (parents st)) in *.
  assert (M0 : (measure' st0 < measure' st)%nat).
  { unfold measure, potential, pot. simpl. lia. }
  assert (S0 : sound' st0 (e_node cur) (e_g cur)) by done.
  assert (basic' st1 /\ sound' st1 (e_node cur) (e_g cur) /\
          (measure' st1 <= measure' st0)%nat) as (? & _ & ?); [| split; [done | lia]].
  apply (expand_preserves
           (fun s => basic' s /\ sound' s (e_node cur) (e_g cur) /\
                     (measure' s <= measure' st0)%nat)
           (e_node cur) (e_g cur)) with (st := st0); [| done | done].
  intros d s s' Hd (Bs & Ss & Ms) W R.
  destruct (basic_relax _ _ _ _ _ Bs Ss Hd W R) as [Bs' Ss'].
  pose proof (measure_relax _ _ _ _ _ Bs Ss Hd W R). split; [done |]. split; [done | lia].
Qed.

Lemma iteration_reached (st st1 : state) (c : Cell) :
  basic' st -> iteration' st = Ok (Reached c st1) ->
  basic' st1 /\ c = end_ /\ exists g, sound' st1 c g.
Proof.
  intros B It.
  apply iteration_inv in It as (cur & open' & Hmin & Hrem & [[E [= -> ->]] | (_ & ? & _ & [=])]).
  pose proof (py_min_elem _ _ Hmin) as Hcur.
  split; [by apply basic_subset, (py_remove_subset _ _ _ Hrem) |].
  split; [done |]. exists (e_g cur). by apply (b_open _ _ _ _ _ _ B).
Qed.

(** *** Path reconstruction *)

Lemma backtrack_inv (k : nat) (ps : gmap Cell Cell) (c : Cell) (acc path : list Cell) :
  backtrack k ps c acc = Some path ->
  exists l r, path = acc ++ l /\ ancestry ps c l r.
Proof.
  revert c acc. induction k as [| k IH]; intros c acc; simpl; [done |].
  destruct (ps !! c) as [p |] eqn:E.
  - intros H. destruct (IH _ _ H) as (l & r & -> & A).
    exists (c :: l), r. split; [by rewrite <- (assoc_L (++)) |].
    by apply ancestry_up with p.
  - intros [= <-]. exists [], c. split; [by rewrite app_nil_r |].
    by apply ancestry_root.
Qed.

Lemma backtrack_terminates (st : state) (k : nat) (c : Cell) (v : Z)
    (acc : list Cell) :
  basic' st -> g_scores st !! c = Some v -> (Z.to_nat v < k)%nat ->
  exists path, backtrack k (parents st) c acc = Some path.
Proof.
  intros B. revert c v acc. induction k as [| k IH]; intros c v acc E Hk; [lia |].
  simpl. destruct (parents st !! c) as [p |] eqn:Ep; [| by eexists].
  destruct (b_desc _ _ _ _ _ _ B _ _ Ep) as (gn & gc & E1 & E2 & Hle).
  rewrite E in E1. injection E1 as <-.
  apply (IH p gc); [done |].
  apply (b_score _ _ _ _ _ _ B) in E2. lia.
Qed.

Lemma chain_snoc (q : list Cell) (p c : Cell) :
  chain q -> last q = Some p -> is_step p c -> chain (q ++ [c]).
Proof.
  induction q as [| a q IH]; [done |].
  destruct q as [| b q].
  - simpl. intros _ [= ->] H. done.
  - intros [Hab Hq] Hl Hs. split; [done |]. by apply IH.
Qed.

Lemma ancestry_path (st : state) (c r : Cell) (l : list Cell) :
  basic' st -> ancestry (parents st) c l r ->
  head (rev (l ++ [r])) = Some r /\
  last (rev (l ++ [r])) = Some c /\
  chain (rev (l ++ [r])) /\
  Forall (fun a => free grid a = true) (tail (rev (l ++ [r]))) /\
  (forall v, g_scores st !! c = Some v -> Z.of_nat (length l) <= v).
Proof.
  intros B. induction 1 as [c E | c p l r E A IH].
  - simpl. repeat split; try done.
    intros v Hv. apply (b_score _ _ _ _ _ _ B) in Hv. lia.
  - destruct IH as (Hh & Hl & Hc & Hf & Hg).
    change (rev ((c :: l) ++ [r])) with (rev (l ++ [r]) ++ [c]).
    destruct (rev (l ++ [r])) as [| a q] eqn:Eq; [done |].
    split; [done |].
    split; [by rewrite last_snoc |].
    split; [apply chain_snoc with p; [done | done |];
            by apply (b_step _ _ _ _ _ _ B) |].
    split.
    + simpl in *. apply Forall_app. split; [exact Hf |]. apply Forall_singleton.
      apply (b_free _ _ _ _ _ _ B) in E. tauto.
    + intros v Hv.
      destruct (b_desc _ _ _ _ _ _ B _ _ E) as (gn & gc & E1 & E2 & Hle).
      rewrite Hv in E1. injection E1 as <-.
      specialize (Hg _ E2). simpl. lia.
Qed.

Lemma ancestry_root_start (st : state) (c r : Cell) (l : list Cell) :
  basic' st -> ancestry (parents st) c l r ->
  c = start \/ is_Some (parents st !! c) -> r = start.
Proof.
  intros B. induction 1 as [c E | c p l r E A IH].
  - intros [-> | [? ?]]; [done | congruence].
  - intros _. apply IH. by apply (b_link _ _ _ _ _ _ B) in E.
Qed.

End Invariants.

(** ** The main loop as a whole *)

Section SearchFacts.
Context {F : PyFloat}.
Variable grid : Grid.
Variables start end_ : Cell.
Variables COL ROW : Z.

Local Abbreviation iteration' := (iteration grid end_ COL ROW).
Local Abbreviation search' := (search grid start end_ COL ROW).
Local Abbreviation cells' := (cells start COL ROW).
Local Abbreviation measure' := (measure start COL ROW).
Local Abbreviation basic' := (basic grid start end_ COL ROW).
Local Abbreviation finish' := (finish grid start end_ COL ROW).

(** A result of [search] comes from a state reached by rounds of the
    loop, so every property kept by a round holds there. *)
Lemma search_inv (I : state -> Prop) (pfuel : nat) :
  (forall st st', I st -> iteration' st = Ok (Next st') -> I st') ->
  forall fuel st w w' r, I st -> search' pfuel fuel st w = Some (w', r) ->
    exists st0, I st0 /\ finish' pfuel st0 w w' r.
Proof.
  intros Hstep. induction fuel as [| fuel IH]; intros st w w' r HI; simpl; [done |].
  destruct (open_set st) as [| e0 l] eqn:Eo.
  - intros [= <- <-]. exists st. split; [done |]. left. done.
  - assert (Hne : open_set st <> []) by (rewrite Eo; done).
    destruct (iteration' st) as [[c st1 | st'] | e] eqn:It.
    + destruct (backtrack pfuel (parents st1) c []) as [path |] eqn:Bt; [| done].
      intros [= <- <-]. exists st. split; [done |]. right. right.
      split; [done |]. by exists c, st1, path.
    + intros H. apply (IH st' w w' r); [| done]. by apply (Hstep st).
    + intros [= <- <-]. exists st. split; [done |]. right. left.
      split; [done |]. by exists e.
Qed.

Lemma search_terminates (pfuel fuel : nat) (st : state) (w : world) :
  basic' st -> (measure' st < fuel)%nat -> (length cells' <= pfuel)%nat ->
  exists x, search' pfuel fuel st w = Some x.
Proof.
  intros B Hm Hp. revert st B Hm. induction fuel as [| fuel IH]; intros st B Hm; [lia |].
  simpl. destruct (open_set st) as [| e0 l] eqn:Eo; [by eexists |].
  destruct (iteration' st) as [[c st1 | st'] | e] eqn:It; [| | by eexists].
  - destruct (iteration_reached _ _ _ _ _ _ _ _ B It) as (B1 & _ & g & S).
    destruct S as (_ & Hg & Hk & v & Hv & Hvg).
    pose proof (known_count_le start COL ROW st1) as Hle.
    destruct (backtrack_terminates grid start end_ COL ROW st1 pfuel c v [] B1 Hv)
      as [path ->]; [lia |].
    by eexists.
  - destruct (iteration_next _ _ _ _ _ _ _ B It) as [B' Hlt].
    apply IH; [done | lia].
Qed.

Lemma backtrack_mono (k k' : nat) (ps : gmap Cell Cell) (c : Cell)
    (acc path : list Cell) :
  backtrack k ps c acc = Some path -> (k <= k')%nat ->
  backtrack k' ps c acc = Some path.
Proof.
  revert k' c acc. induction k as [| k IH]; intros k' c acc; simpl; [done |].
  intros H Hk. destruct k' as [| k']; [lia |]. simpl.
  destruct (ps !! c); [| done]. apply IH; [done | lia].
Qed.

(** More fuel does not change a result. *)
Lemma search_mono (pfuel pfuel' fuel fuel' : nat) (st : state) (w : world)
    (x : world * res (list Cell)) :
  search' pfuel fuel st w = Some x -> (pfuel <= pfuel')%nat -> (fuel <= fuel')%nat ->
  search' pfuel' fuel' st w = Some x.
Proof.
  intros H Hp. revert fuel' st H. induction fuel as [| fuel IH]; intros fuel' st; simpl;
    [done |].
  intros H Hf. destruct fuel' as [| fuel']; [lia |]. simpl.
  destruct (open_set st); [done |].
  destruct (iteration' st) as [[c st1 | st'] |]; [| | done].
  - destruct (backtrack pfuel (parents st1) c []) as [path |] eqn:Bt; [| done].
    by rewrite (backtrack_mono _ _ _ _ _ _ Bt Hp).
  - apply IH; [done | lia].
Qed.

(** The returned value does not depend on the world. *)
Lemma search_world (pfuel fuel : nat) (st : state) (w1 w2 : world) :
  snd <$> search' pfuel fuel st w1 = snd <$> search' pfuel fuel st w2.
Proof.
  revert st. induction fuel as [| fuel IH]; intros st; simpl; [done |].
  destruct (open_set st); [done |].
  destruct (iteration' st) as [[c st1 | st'] |]; [| done | done].
  by destruct (backtrack pfuel (parents st1) c []).
Qed.

End SearchFacts.

(** ** No exception on a rectangular grid *)

Section Progress.
Context {F : PyFloat} {FE : FloatEq F}.
Variable grid : Grid.
Variables start end_ : Cell.
Variables COL ROW : Z.

Local Abbreviation walkable' := (walkable grid COL ROW).
Local Abbreviation relax' := (relax end_).
Local Abbreviation expand' := (expand grid end_ COL ROW).
Local Abbreviation iteration' := (iteration grid end_ COL ROW).
Local Abbreviation search' := (search grid start end_ COL ROW).
Local Abbreviation cells' := (cells start COL ROW).
Local Abbreviation sound' := (sound start COL ROW).
Local Abbreviation basic' := (basic grid start end_ COL ROW).

Hypothesis grid_rect : forall n : Cell,
  0 <= n.1 < COL -> 0 <= n.2 < ROW -> exists b, walkable' n = Ok b.
Hypothesis heuristic_ok : forall n : Cell,
  0 <= n.1 < COL -> 0 <= n.2 < ROW -> exists h, heuristic n end_ = Ok h.
Hypothesis score_ok : forall g : Z,
  0 <= g <= Z.of_nat (length cells') -> is_Some (float_of_int g).

Lemma walkable_total (n : Cell) : exists b, walkable' n = Ok b.
Proof.
  destruct (decide (0 <= n.1 < COL /\ 0 <= n.2 < ROW)) as [[H1 H2] | H].
  - by apply grid_rect.
  - exists false. unfold walkable.
    destruct (Z.leb_spec 0 n.1), (Z.ltb_spec n.1 COL), (Z.leb_spec 0 n.2),
      (Z.ltb_spec n.2 ROW); simpl; try done. lia.
Qed.

Lemma relax_ok (st : state) (c : Cell) (g : Z) (n : Cell) :
  sound' st c g -> walkable' n = Ok true -> exists st', relax' c g n st = Ok st'.
Proof.
  intros (_ & Hg & Hk & _) W. unfold relax.
  destruct (improves (g + 1) n st); [| by eexists].
  destruct (walkable_true _ _ _ _ W) as (H1 & H2 & _).
  destruct (heuristic_ok n H1 H2) as [h ->]. simpl.
  pose proof (known_count_le start COL ROW st).
  destruct (score_ok (g + 1)) as [x Hx]; [lia |].
  unfold int_to_float. rewrite Hx. simpl. by eexists.
Qed.

Lemma expand_ok (c : Cell) (g : Z) (moves : list (Z * Z)) (st : state) :
  moves ⊆ movements -> basic' st -> sound' st c g ->
  exists st', expand' c g moves st = Ok st'.
Proof.
  revert st. induction moves as [| [dx dy] moves IH]; intros st Hsub B S; simpl;
    [by eexists |].
  assert (Hd : (dx, dy) ∈ movements) by (apply Hsub; left).
  assert (Hsub' : moves ⊆ movements) by (intros x Hx; apply Hsub; by right).
  destruct (walkable_total (c.1 + dx, c.2 + dy)) as [[|] W]; rewrite W; simpl.
  - destruct (relax_ok st c g _ S W) as [st1 R]. rewrite R. simpl.
    destruct (basic_relax grid start end_ COL ROW st st1 c g (dx, dy) B S Hd W R)
      as [B1 S1].
    by apply IH.
  - by apply IH.
Qed.

Lemma iteration_ok (st : state) :
  basic' st -> open_set st <> [] -> exists r, iteration' st = Ok r.
Proof.
  intros B Hne. unfold iteration.
  destruct (py_min_nonempty _ Hne) as [cur Hmin]. rewrite Hmin. cbn [res_bind].
  pose proof (py_min_elem _ _ Hmin) as Hcur.
  destruct (py_remove_found cur (open_set st)) as [open' Hrem].
  { exists cur. split; [done |]. apply entry_eqb_refl. }
  rewrite Hrem. cbn [res_bind].
  destruct (cell_eqb (e_node cur) end_); [by eexists |].
  destruct (expand_ok (e_node cur) (e_g cur) movements
              (State open' (g_scores st) (parents st))) as [st' ->];
    [done | | | by eexists].
  - by apply basic_subset, (py_remove_subset _ _ _ Hrem).
  - by apply (b_open _ _ _ _ _ _ B).
Qed.

Lemma search_no_raise (pfuel fuel : nat) (st : state) (w w' : world)
    (r : res (list Cell)) :
  basic' st -> search' pfuel fuel st w = Some (w', r) -> exists path, r = Ok path.
Proof.
  intros B H.
  apply (search_inv grid start end_ COL ROW basic') in H as (st0 & B0 & Hfin); [| | done].
  - destruct Hfin as [(_ & -> & _) | [(Hne & e & It & _) | (_ & c & st1 & path & _ & _ & -> & _)]];
      [by eexists | | by eexists].
    destruct (iteration_ok st0 B0 Hne) as [? ?]. congruence.
  - intros s s' Bs It. by apply (iteration_next _ _ _ _ _ _ _ Bs It).
Qed.

End Progress.

(** ** The order in which entries leave the open set *)

Section Selection.
Context {F : PyFloat} {FO : FloatOrder F}.

Lemma min_from_split (pre : list entry) (best : entry) (mid l : list entry) :
  (forall x, x ∈ pre -> flt (e_f best) (e_f x) = true) ->
  (forall x, x ∈ mid -> flt (e_f x) (e_f best) = false) ->
  exists l1 l2,
    pre ++ best :: mid ++ l = l1 ++ min_from best l :: l2 /\
    (forall x, x ∈ l1 -> flt (e_f (min_from best l)) (e_f x) = true) /\
    (forall x, x ∈ l2 -> flt (e_f x) (e_f (min_from best l)) = false).
Proof.
  revert pre best mid. induction l as [| y l IH]; intros pre best mid Hpre Hmid; simpl.
  - exists pre, mid. by rewrite app_nil_r.
  - destruct (flt (e_f y) (e_f best)) eqn:E.
    + destruct (IH (pre ++ best :: mid) y []) as (l1 & l2 & Heq & H1 & H2).
      * intros x [Hx | [-> | Hx]%elem_of_cons]%elem_of_app.
        -- apply flt_trans with (e_f best); [done | by apply Hpre].
        -- done.
        -- apply flt_weak with (e_f best); [done | by apply Hmid].
      * intros x Hx. by apply not_elem_of_nil in Hx.
      * exists l1, l2. split; [| done]. rewrite <- Heq.
        by rewrite <- (assoc_L (++)).
    + destruct (IH pre best (mid ++ [y])) as (l1 & l2 & Heq & H1 & H2).
      * done.
      * intros x [Hx | ->%list_elem_of_singleton]%elem_of_app; [by apply Hmid | done].
      * exists l1, l2. split; [| done]. rewrite <- Heq.
        by rewrite <- (assoc_L (++)).
Qed.

(** [min] returns the first entry among those with the least key. *)
Lemma py_min_first (l : list entry) (m : entry) :
  py_min l = Ok m ->
  exists l1 l2, l = l1 ++ m :: l2 /\
    (forall x, x ∈ l1 -> flt (e_f m) (e_f x) = true) /\
    (forall x, x ∈ l2 -> flt (e_f x) (e_f m) = false).
Proof.
  destruct l as [| x l]; simpl; [done |]. intros [= <-].
  destruct (min_from_split [] x [] l) as (l1 & l2 & Heq & H1 & H2).
  - intros y Hy. by apply not_elem_of_nil in Hy.
  - intros y Hy. by apply not_elem_of_nil in Hy.
  - by exists l1, l2.
Qed.

Lemma py_min_least (l : list entry) (m x : entry) :
  py_min l = Ok m -> x ∈ l -> flt (e_f x) (e_f m) = false.
Proof.
  intros Hm Hx. destruct (py_min_first _ _ Hm) as (l1 & l2 & -> & H1 & H2).
  apply elem_of_app in Hx as [Hx | [-> | Hx]%elem_of_cons].
  - apply not_true_is_false. intros Hlt.
    pose proof (flt_trans _ _ _ Hlt (H1 _ Hx)) as Hxx.
    by rewrite flt_irrefl in Hxx.
  - apply flt_irrefl.
  - by apply H2.
Qed.

End Selection.

(** ** Propagation of the g-scores *)

Section Settled.
Context {F : PyFloat}.
Variable grid : Grid.
Variables start end_ : Cell.
Variables COL ROW : Z.

Local Abbreviation walkable' := (walkable grid COL ROW).
Local Abbreviation relax' := (relax end_).
Local Abbreviation expand' := (expand grid end_ COL ROW).
Local Abbreviation iteration' := (iteration grid end_ COL ROW).
Local Abbreviation basic' := (basic grid start end_ COL ROW).
Local Abbreviation settled' := (settled grid end_ COL ROW).
Local Abbreviation settling' := (settling grid end_ COL ROW).
Local Abbreviation relaxed_by' := (relaxed_by grid COL ROW).

Lemma settled_initial : settled' (initial start).
Proof.
  intros n v. simpl. intros [<- <-]%lookup_singleton_Some. left.
  eexists. split; [by apply list_elem_of_singleton | done].
Qed.

Lemma settled_remove (st : state) (cur : entry) (open' : list entry) :
  settled' st -> py_remove cur (open_set st) = Ok open' ->
  settling' (State open' (g_scores st) (parents st)) (e_node cur) (e_g cur) [].
Proof.
  intros H Hrem. apply py_remove_split in Hrem as (l1 & y & l2 & Eo & -> & Ey).
  apply entry_eqb_same in Ey as [Eg En].
  split; [| intros d Hd; by apply not_elem_of_nil in Hd].
  intros n v Hv. simpl in Hv.
  destruct (H n v Hv) as [(e & He & <- & <-) | R]; [| right; by left].
  rewrite Eo in He.
  apply elem_of_app in He as [He | [-> | He]%elem_of_cons].
  - left. exists e. split; [| done]. simpl. apply elem_of_app. by left.
  - right. right. done.
  - left. exists e. split; [| done]. simpl. apply elem_of_app. by right.
Qed.

Lemma relaxed_by_insert (st : state) (l : list entry) (ps : gmap Cell Cell)
    (n a : Cell) (g v : Z) (ds : list (Z * Z)) :
  improves (g + 1) n st = true -> relaxed_by' st a v ds ->
  relaxed_by' (State l (<[n := g + 1]> (g_scores st)) ps) a v ds.
Proof.
  intros I R d Hd W. destruct (R d Hd W) as (w & Hw & Hle). simpl.
  destruct (decide (n = (a.1 + d.1, a.2 + d.2))) as [E | E].
  - exists (g + 1). rewrite <- E, lookup_insert_eq. split; [done |].
    unfold improves in I. rewrite E, Hw in I. apply Z.ltb_lt in I. lia.
  - exists w. by rewrite lookup_insert_ne.
Qed.

Lemma settling_step (st st' : state) (c : Cell) (g : Z) (ds : list (Z * Z))
    (d : Z * Z) :
  settling' st c g ds ->
  walkable' (c.1 + d.1, c.2 + d.2) = Ok true ->
  relax' c g (c.1 + d.1, c.2 + d.2) st = Ok st' ->
  settling' st' c g (ds ++ [d]).
Proof.
  intros [H1 H2] W R. set (n := (c.1 + d.1, c.2 + d.2)) in *.
  apply relax_inv in R as [[I ->] | (I & h & x & Hh & Hx & ->)].
  - split; [done |].
    intros d' [Hd' | ->%list_elem_of_singleton]%elem_of_app W'; [by apply H2 |].
    unfold improves in I. fold n.
    destruct (g_scores st !! n) as [w |]; [| done].
    exists w. split; [done |]. apply Z.ltb_ge in I. lia.
  - split.
    + intros a v. simpl. intros [[<- <-] | [Hna E]]%lookup_insert_Some.
      * left. eexists. split; [apply elem_of_app; right; by apply list_elem_of_singleton |].
        done.
      * destruct (H1 a v E) as [(e & He & <- & <-) | [[Hne R] | [-> ->]]].
        -- left. exists e. split; [| done]. simpl. apply elem_of_app. by left.
        -- right. left. split; [done |]. by apply relaxed_by_insert.
        -- right. by right.
    + intros d' [Hd' | ->%list_elem_of_singleton]%elem_of_app W'.
      * by apply (relaxed_by_insert st _ _ n c g g ds I).
      * exists (g + 1). simpl. fold n. rewrite lookup_insert_eq. split; [done | lia].
Qed.

Lemma settling_skip (st : state) (c : Cell) (g : Z) (ds : list (Z * Z)) (d : Z * Z) :
  settling' st c g ds ->
  walkable' (c.1 + d.1, c.2 + d.2) = Ok false ->
  settling' st c g (ds ++ [d]).
Proof.
  intros [H1 H2] W. split; [done |].
  intros d' [Hd' | ->%list_elem_of_singleton]%elem_of_app W'; [by apply H2 | congruence].
Qed.

(** A round that does not reach the goal keeps every g-score either
    waiting or propagated. *)
Lemma settled_next (st st' : state) :
  settled' st -> iteration' st = Ok (Next st') -> settled' st'.
Proof.
  intros H It.
  apply iteration_inv in It as (cur & open' & Hmin & Hrem & [[_ [=]] | (Hne & st1 & E & [= ->])]).
  pose proof (settled_remove _ _ _ H Hrem) as H0.
  assert (settling' st1 (e_node cur) (e_g cur) ([] ++ movements)) as [H1 H2].
  { apply (expand_inv grid end_ COL ROW
             (fun ds s => settling' s (e_node cur) (e_g cur) ds)
             (e_node cur) (e_g cur)) with (st := State open' (g_scores st) (parents st));
      [| | done | done | done].
    - intros ds d s _ Hs W. by apply settling_skip.
    - intros ds d s s' _ Hs W R. by apply settling_step with s. }
  intros n v Hv. destruct (H1 n v Hv) as [P | [R | [-> ->]]]; [by left | by right |].
  right. done.
Qed.

End Settled.

(** ** The goal leaves the open set with the least cost *)

Section Optimal.
Context {F : PyFloat} {FO : FloatOrder F} {FA : FloatAdmissible F}.
Variable grid : Grid.
Variables start end_ : Cell.
Variables COL ROW : Z.

Local Abbreviation walkable' := (walkable grid COL ROW).
Local Abbreviation basic' := (basic grid start end_ COL ROW).
Local Abbreviation settled' := (settled grid end_ COL ROW).

Hypothesis free_walkable : forall n : Cell,
  free grid n = true -> walkable' n = Ok true.

Lemma is_step_offset (a b : Cell) :
  is_step a b ->
  exists d, d ∈ movements /\ b = (a.1 + d.1, a.2 + d.2).
Proof.
  intros H. exists (b.1 - a.1, b.2 - a.2). split; [done |].
  destruct b as [b1 b2]. simpl. f_equal; lia.
Qed.

Lemma manhattan_step (a b e : Cell) :
  is_step a b -> manhattan a e <= manhattan b e + 1.
Proof.
  unfold is_step, movements, manhattan.
  rewrite !elem_of_cons, elem_of_nil.
  intros [H | [H | [H | [H | []]]]]; injection H as H1 H2; lia.
Qed.

Lemma manhattan_chain (p : list Cell) (a b : Cell) :
  head p = Some a -> last p = Some b -> chain p ->
  manhattan a b <= Z.of_nat (length p) - 1.
Proof.
  revert a. induction p as [| x p IH]; intros a; [done |].
  intros [= ->]. destruct p as [| y p].
  - intros [= ->] _. unfold manhattan. simpl. lia.
  - intros Hl [Hs Hc].
    specialize (IH y eq_refl Hl Hc).
    pose proof (manhattan_step a y b Hs).
    simpl length in *. lia.
Qed.

(** While a walk leads from a scored cell to the goal, some open-set
    entry is no further from the goal than the walk promises. *)
Lemma open_witness (st : state) (p : list Cell) :
  settled' st ->
  forall a v, head p = Some a -> last p = Some end_ -> chain p ->
    Forall (fun c => free grid c = true) (tail p) ->
    g_scores st !! a = Some v ->
    exists e, e ∈ open_set st /\
      e_g e + manhattan (e_node e) end_ <= v + Z.of_nat (length p) - 1.
Proof.
  intros S. induction p as [| x p IH]; intros a v; [done |].
  intros [= ->] Hl Hc Hf Hv.
  destruct (S a v Hv) as [(e & He & En & Eg) | [Hne R]].
  - exists e. split; [done |]. rewrite En, Eg.
    pose proof (manhattan_chain (a :: p) a end_ eq_refl Hl Hc). lia.
  - destruct p as [| b p]; [simpl in Hl; congruence |].
    destruct Hc as [Hs Hc]. simpl in Hf.
    apply Forall_cons in Hf as [Hb Hf].
    destruct (is_step_offset _ _ Hs) as (d & Hd & Eb).
    destruct (R d Hd) as (w & Hw & Hle); [rewrite <- Eb; by apply free_walkable |].
    rewrite <- Eb in Hw.
    destruct (IH b w eq_refl Hl Hc Hf Hw) as (e & He & Hbound).
    exists e. split; [done |]. simpl length in *. lia.
Qed.

Lemma heuristic_inv (a b : Cell) (h : float) :
  heuristic a b = Ok h ->
  exists x, float_of_int ((a.1 - b.1) ^ 2 + (a.2 - b.2) ^ 2) = Some x /\
            h = fpow_half x.
Proof.
  unfold heuristic, int_to_float.
  destruct (float_of_int _) as [x |]; simpl; [| done].
  intros [= <-]. by exists x.
Qed.

Lemma euclid_le_manhattan (a b : Cell) :
  (a.1 - b.1) ^ 2 + (a.2 - b.2) ^ 2 <= manhattan a b ^ 2.
Proof. unfold manhattan. nia. Qed.

(** The entry of the goal that [min] selects costs no more than any walk
    from the start to the goal. *)
Lemma optimal_pop (st : state) (cur : entry) (p : list Cell) :
  basic' st -> settled' st ->
  head p = Some start -> last p = Some end_ -> chain p ->
  Forall (fun c => free grid c = true) (tail p) ->
  py_min (open_set st) = Ok cur -> e_node cur = end_ ->
  e_g cur <= Z.of_nat (length p) - 1.
Proof.
  intros B S Hh Hl Hc Hf Hmin Hend.
  destruct (open_witness st p S start 0 Hh Hl Hc Hf (b_start _ _ _ _ _ _ B))
    as (e & He & Hbound).
  destruct (Z.le_gt_cases (e_g cur) (Z.of_nat (length p) - 1)) as [? | Hgt]; [done |].
  exfalso.
  pose proof (py_min_least _ _ _ Hmin He) as Hleast.
  pose proof (py_min_elem _ _ Hmin) as Hcur.
  destruct (b_open _ _ _ _ _ _ B _ He) as (_ & Hge & _).
  assert (Hm : 0 <= manhattan (e_node e) end_) by (unfold manhattan; lia).
  destruct (b_key _ _ _ _ _ _ B _ Hcur) as [(_ & E0 & _) | (xg' & h' & Hxg' & Hh' & Hf')];
    [lia |].
  rewrite Hend in Hh'. apply heuristic_inv in Hh' as (x0 & Hx0 & ->).
  rewrite !Z.sub_diag in Hx0. change (0 ^ 2 + 0 ^ 2) with 0 in Hx0.
  assert (flt (e_f e) (e_f cur) = true); [| congruence].
  rewrite Hf'.
  destruct (b_key _ _ _ _ _ _ B _ He) as [(-> & _ & _) | (xg & h & Hxg & Hhe & ->)].
  - apply f_seed_least with (e_g cur); [lia | done | done].
  - apply heuristic_inv in Hhe as (xn & Hxn & ->).
    eapply f_score_admissible; [exact Hge | | | | exact Hxg | exact Hxn | exact Hxg' | exact Hx0].
    + nia.
    + lia.
    + pose proof (euclid_le_manhattan (e_node e) end_).
      assert (manhattan (e_node e) end_ <= e_g cur - 1 - e_g e) by lia.
      nia.
Qed.

End Optimal.

(** ** The whole call *)

Section Call.
Context {F : PyFloat}.

Lemma py_index_first (grid : Grid) :
  py_index grid 0 =
  match grid with [] => Raise IndexError | row0 :: _ => Ok row0 end.
Proof.
  unfold py_index. destruct grid as [| row0 rest]; [done |].
  simpl length. destruct (Z.ltb_spec 0 (Z.of_nat (S (length rest)))); [done | lia].
Qed.

Lemma randint_ok (rnd : nat -> Z) (b : Z) (w : world) :
  0 <= b ->
  randint rnd 0 b w = (World (S (rng_draws w)) (trace w),
                       Ok (0 + rnd (rng_draws w) mod (b - 0 + 1))).
Proof. intros Hb. unfold randint. destruct (Z.ltb_spec b 0); [lia | done]. Qed.

Lemma random_points_ok (rnd : nat -> Z) (n : nat) (COL ROW : Z) (acc : list Cell)
    (w : world) :
  0 < COL -> 0 < ROW ->
  exists pts, random_points rnd n COL ROW acc w =
              (World (rng_draws w + 2 * n) (trace w), Ok pts).
Proof.
  intros HC HR. revert acc w. induction n as [| n IH]; intros acc w; simpl.
  - exists acc. destruct w. simpl. do 2 f_equal. lia.
  - rewrite !randint_ok by lia. simpl.
    destruct (IH (acc ++ [(0 + rnd (rng_draws w) mod (COL - 1 - 0 + 1),
                           0 + rnd (S (rng_draws w)) mod (ROW - 1 - 0 + 1))])
                 (World (S (S (rng_draws w))) (trace w))) as [pts ->].
    exists pts. simpl. do 2 f_equal. lia.
Qed.

(** The three ways a call can go before the main loop. *)
Lemma do_a_star_cases (rnd : nat -> Z) (fuel : nat) (grid : Grid)
    (start end_ : Cell) (w : world) :
  (grid = [] /\
   do_a_star rnd fuel grid start end_ w = Some (w, Raise IndexError)) \/
  (0 < height grid /\ width grid = 0 /\ exists w1,
   do_a_star rnd fuel grid start end_ w = Some (w1, Raise ValueError)) \/
  (0 < height grid /\ 0 < width grid /\
   do_a_star rnd fuel grid start end_ w =
   search grid start end_ (height grid) (width grid) fuel fuel (initial start)
     (started start w)).
Proof.
  unfold do_a_star. rewrite py_index_first.
  destruct grid as [| row0 rest]; [by left | right].
  destruct row0 as [| v row0].
  - left. split; [unfold height; simpl; lia |]. split; [done |]. simpl.
    rewrite randint_ok by lia. simpl. by eexists.
  - right. unfold height, width.
    split; [simpl; lia |]. split; [simpl; lia |].
    destruct (random_points_ok rnd 9 (Z.of_nat (length ((v :: row0) :: rest)))
                (Z.of_nat (length (v :: row0))) [] w) as [pts ->];
      [simpl; lia | simpl; lia |].
    done.
Qed.

Lemma sum_list_with_bound {A} (f : A -> nat) (k : nat) (l : list A) :
  (forall x, x ∈ l -> (f x <= k)%nat) ->
  (sum_list_with f l <= length l * k)%nat.
Proof.
  induction l as [| a l IH]; intros H; simpl; [lia |].
  pose proof (H a (list_elem_of_here _ _)).
  assert (sum_list_with f l <= length l * k)%nat; [| lia].
  apply IH. intros x Hx. apply H. by right.
Qed.

Lemma length_cells (start : Cell) (COL ROW : Z) :
  length (cells start COL ROW) = S (Z.to_nat COL * Z.to_nat ROW).
Proof.
  unfold cells. simpl. f_equal.
  by rewrite list_cprod_list_prod, length_prod, !length_seqZ.
Qed.

Lemma measure_initial (grid : Grid) (start : Cell) :
  (measure start (height grid) (width grid) (initial start) < enough_fuel grid)%nat.
Proof.
  unfold measure, enough_fuel, potential. simpl length at 1.
  rewrite <- (length_cells start).
  pose proof (sum_list_with_bound
                (pot start (height grid) (width grid) (initial start))
                (S (length (cells start (height grid) (width grid))))
                (cells start (height grid) (width grid))) as H.
  assert (sum_list_with (pot start (height grid) (width grid) (initial start))
            (cells start (height grid) (width grid))
          <= length (cells start (height grid) (width grid))
             * S (length (cells start (height grid) (width grid))))%nat; [| lia].
  apply H. intros c _. unfold pot. simpl.
  destruct (decide (start = c)) as [<- | Hne].
  - rewrite lookup_singleton_eq. simpl. lia.
  - rewrite lookup_singleton_ne by done. lia.
Qed.

Lemma enough_fuel_cells (grid : Grid) (start : Cell) :
  (length (cells start (height grid) (width grid)) <= enough_fuel grid)%nat.
Proof. rewrite length_cells. unfold enough_fuel. lia. Qed.

(** Every call returns when it is given [enough_fuel]. *)
Lemma do_a_star_returns (rnd : nat -> Z) (fuel : nat) (grid : Grid)
    (start end_ : Cell) (w : world) :
  (enough_fuel grid <= fuel)%nat ->
  exists x, do_a_star rnd fuel grid start end_ w = Some x.
Proof.
  intros Hf.
  destruct (do_a_star_cases rnd fuel grid start end_ w)
    as [[_ ->] | [(_ & _ & w1 & ->) | (_ & _ & ->)]]; [by eexists | by eexists |].
  apply search_terminates.
  - apply basic_initial.
  - pose proof (measure_initial grid start). lia.
  - pose proof (enough_fuel_cells grid start). lia.
Qed.

(** A result that is not an early exception is the result of the main
    loop, left in a state where the invariants hold. *)
Lemma do_a_star_finish (rnd : nat -> Z) (fuel : nat) (grid : Grid)
    (start end_ : Cell) (w w' : world) (path : list Cell) :
  do_a_star rnd fuel grid start end_ w = Some (w', Ok path) ->
  exists st,
    basic grid start end_ (height grid) (width grid) st /\
    settled grid end_ (height grid) (width grid) st /\
    finish grid start end_ (height grid) (width grid) fuel st
      (started start w) w' (Ok path).
Proof.
  intros H.
  destruct (do_a_star_cases rnd fuel grid start end_ w)
    as [[_ E] | [(_ & _ & w1 & E) | (_ & _ & E)]]; rewrite E in H; [done | done |].
  apply (search_inv grid start end_ (height grid) (width grid)
           (fun s => basic grid start end_ (height grid) (width grid) s /\
                     settled grid end_ (height grid) (width grid) s)) in H.
  - destruct H as (st & [B S] & Hfin). by exists st.
  - intros s s' [Bs Ss] It. split.
    + by apply (iteration_next _ _ _ _ _ _ _ Bs It).
    + by apply (settled_next _ _ _ _ _ _ Ss It).
  - split; [apply basic_initial | apply settled_initial].
Qed.

End Call.

(** ** Rectangular grids *)

Section Rectangular.
Context {F : PyFloat}.
Variable grid : Grid.
Hypothesis grid_wf : wf_grid grid.

Lemma walkable_free (n : Cell) :
  walkable grid (height grid) (width grid) n = Ok (free grid n).
Proof.
  destruct grid_wf as (Hh & Hw & Hrows). unfold walkable, free, height in *.
  destruct (Z.leb_spec 0 n.1) as [H1 | H1]; simpl; [| done].
  destruct (Z.leb_spec 0 n.2) as [H2 | H2]; simpl.
  2: { by rewrite !andb_false_r. }
  destruct (Z.ltb_spec n.1 (Z.of_nat (length grid))) as [H3 | H3]; simpl.
  2: { rewrite (proj2 (lookup_ge_None grid (Z.to_nat n.1))) by lia. done. }
  destruct (lookup_lt_is_Some_2 grid (Z.to_nat n.1)) as [row Hrow]; [lia |].
  rewrite Hrow.
  pose proof (Forall_lookup_1 _ _ _ _ Hrows Hrow) as Hlen. simpl in Hlen.
  destruct (Z.ltb_spec n.2 (width grid)) as [H4 | H4]; simpl.
  2: { rewrite (proj2 (lookup_ge_None row (Z.to_nat n.2))) by lia. done. }
  destruct (lookup_lt_is_Some_2 row (Z.to_nat n.2)) as [v Hv]; [lia |].
  rewrite Hv. unfold py_index.
  destruct (Z.leb_spec 0 n.1); [| lia].
  destruct (Z.ltb_spec n.1 (Z.of_nat (length grid))); [| lia]. simpl.
  rewrite Hrow. simpl.
  destruct (Z.leb_spec 0 n.2); [| lia].
  destruct (Z.ltb_spec n.2 (Z.of_nat (length row))); [| lia]. simpl.
  by rewrite Hv.
Qed.

Lemma square_bound (x B : Z) : Z.abs x <= B -> x ^ 2 <= B ^ 2.
Proof. intros H. nia. Qed.

Lemma wf_heuristic_ok `{!FloatRange F} (end_ n : Cell) :
  small end_ -> 0 <= n.1 < height grid -> 0 <= n.2 < width grid ->
  exists h, heuristic n end_ = Ok h.
Proof.
  intros [S1 S2] H1 H2. destruct grid_wf as (Hh & Hw & _).
  unfold heuristic, int_to_float.
  assert (Hm : max_size <= 2 ^ 500) by (vm_compute; discriminate).
  pose proof (square_bound (n.1 - end_.1) (2 * 2 ^ 500)) as B1.
  pose proof (square_bound (n.2 - end_.2) (2 * 2 ^ 500)) as B2.
  assert (Hc : 2 * (2 * 2 ^ 500) ^ 2 < 2 ^ 1023) by (vm_compute; reflexivity).
  destruct (float_of_int_range ((n.1 - end_.1) ^ 2 + (n.2 - end_.2) ^ 2)) as [x ->].
  - assert (0 <= (n.1 - end_.1) ^ 2) by nia.
    assert (0 <= (n.2 - end_.2) ^ 2) by nia.
    assert ((n.1 - end_.1) ^ 2 <= (2 * 2 ^ 500) ^ 2) by (apply B1; lia).
    assert ((n.2 - end_.2) ^ 2 <= (2 * 2 ^ 500) ^ 2) by (apply B2; lia).
    lia.
  - simpl. by eexists.
Qed.

Lemma wf_score_ok `{!FloatRange F} (start : Cell) (g : Z) :
  0 <= g <= Z.of_nat (length (cells start (height grid) (width grid))) ->
  is_Some (float_of_int g).
Proof.
  intros Hg. destruct grid_wf as (Hh & Hw & _).
  apply float_of_int_range. rewrite length_cells in Hg.
  assert (Hc : 1 + max_size * max_size < 2 ^ 1023) by (vm_compute; reflexivity).
  assert (Z.of_nat (Z.to_nat (height grid) * Z.to_nat (width grid))
          <= max_size * max_size) by nia.
  lia.
Qed.

(** On a rectangular grid and for a goal in range no exception is raised. *)
Lemma do_a_star_normal `{!FloatEq F} `{!FloatRange F} (rnd : nat -> Z)
    (fuel : nat) (start end_ : Cell) (w w' : world) (r : res (list Cell)) :
  small end_ ->
  do_a_star rnd fuel grid start end_ w = Some (w', r) ->
  exists path, r = Ok path.
Proof.
  intros Hs H. pose proof grid_wf as (Hh & Hw & _).
  destruct (do_a_star_cases rnd fuel grid start end_ w)
    as [[E _] | [(_ & E & _) | (_ & _ & E)]].
  - rewrite E in Hh. unfold height in Hh. simpl in Hh. lia.
  - lia.
  - rewrite E in H.
    apply (search_no_raise grid start end_ (height grid) (width grid)) in H; [done | | | |].
    + intros n _ _. rewrite walkable_free. by eexists.
    + intros n. by apply wf_heuristic_ok.
    + apply wf_score_ok.
    + apply basic_initial.
Qed.

End Rectangular.

(** ** How a call ends *)

Section Ending.
Context {F : PyFloat}.
Variable grid : Grid.
Variables start end_ : Cell.
Variables COL ROW : Z.

Local Abbreviation basic' := (basic grid start end_ COL ROW).
Local Abbreviation finish' := (finish grid start end_ COL ROW).

(** A non-empty result was rebuilt from the goal entry that [min]
    selected: it is a walk from the start to the goal that is no longer
    than the recorded g-score of the goal. *)
Lemma finish_found (pfuel : nat) (st : state) (w w' : world) (path : list Cell) :
  basic' st -> finish' pfuel st w w' (Ok path) -> path <> [] ->
  walk grid start end_ path /\
  (exists cur, py_min (open_set st) = Ok cur /\ e_node cur = end_ /\
               Z.of_nat (length path) - 1 <= e_g cur) /\
  (end_ = start \/ is_Some (parents st !! end_)) /\
  w' = display_message "Path found!"
         (print ("Reconstructed Path:  " ++ str_path path) w).
Proof.
  intros B [(_ & [= <-] & _) | [(_ & e & _ & [=] & _) | (_ & c & st1 & l & It & Bt & [= ->] & ->)]] Hne;
    [done |].
  apply iteration_inv in It as (cur & open' & Hmin & Hrem & [[E [= -> ->]] | (_ & ? & _ & [=])]).
  simpl in Bt. rewrite E in Bt.
  apply backtrack_inv in Bt as (l' & r & -> & A). simpl.
  pose proof (py_min_elem _ _ Hmin) as Hcur.
  destruct (b_open _ _ _ _ _ _ B _ Hcur) as (Hl & _ & _ & v & Hv & Hvg).
  rewrite E in Hl, Hv.
  pose proof (ancestry_root_start _ _ _ _ _ _ _ _ _ B A Hl) as ->.
  destruct (ancestry_path _ _ _ _ _ _ _ _ _ B A) as (P1 & P2 & P3 & P4 & P5).
  split; [done |]. split; [| done].
  exists cur. split; [done |]. split; [done |].
  specialize (P5 _ Hv). rewrite length_rev, length_app. simpl. lia.
Qed.

Lemma finish_empty (pfuel : nat) (st : state) (w w' : world) :
  finish' pfuel st w w' (Ok []) ->
  open_set st = [] /\ w' = display_message "No path found!" w.
Proof.
  intros [(? & _ & ?) | [(_ & e & _ & [=] & _) | (_ & c & st1 & l & _ & _ & [= H] & _)]];
    [done |].
  symmetry in H. apply (f_equal (@length Cell)) in H.
  rewrite length_rev, length_app in H. simpl in H. lia.
Qed.

End Ending.

(** ** The g-scores along the rounds *)

Section Scores.
Context {F : PyFloat}.
Variable grid : Grid.
Variable end_ : Cell.
Variables COL ROW : Z.

Lemma relax_scores (c : Cell) (g : Z) (n : Cell) (st st' : state) (a : Cell) (v : Z) :
  relax end_ c g n st = Ok st' -> g_scores st !! a = Some v ->
  g_scores st' !! a = Some v \/
  (a = n /\ g + 1 < v /\ g_scores st' !! a = Some (g + 1)).
Proof.
  intros R Hv. apply relax_inv in R as [[_ ->] | (I & h & x & _ & _ & ->)]; [by left |].
  simpl. destruct (decide (n = a)) as [<- | Hne].
  - right. unfold improves in I. rewrite Hv in I. apply Z.ltb_lt in I.
    by rewrite lookup_insert_eq.
  - left. by rewrite lookup_insert_ne.
Qed.

Lemma round_scores (st st' : state) (a : Cell) (v : Z) :
  next_round grid end_ COL ROW st st' -> g_scores st !! a = Some v ->
  exists v', g_scores st' !! a = Some v' /\ v' <= v.
Proof.
  intros It Hv.
  apply iteration_inv in It as (cur & open' & _ & _ & [[_ [=]] | (_ & st1 & E & [= ->])]).
  apply (expand_preserves grid end_ COL ROW
           (fun s => exists v', g_scores s !! a = Some v' /\ v' <= v)
           (e_node cur) (e_g cur)) with (st := State open' (g_scores st) (parents st));
    [| by exists v | done].
  intros d s s' _ (v1 & Hv1 & Hle) _ R.
  destruct (relax_scores _ _ _ _ _ _ _ R Hv1) as [H | (_ & Hlt & H)].
  - by exists v1.
  - exists (e_g cur + 1). split; [done | lia].
Qed.

Lemma rounds_scores (st st' : state) (a : Cell) (v : Z) :
  rtc (next_round grid end_ COL ROW) st st' -> g_scores st !! a = Some v ->
  exists v', g_scores st' !! a = Some v' /\ v' <= v.
Proof.
  intros H. revert v. induction H as [st | st st1 st' R _ IH]; intros v Hv.
  - by exists v.
  - destruct (round_scores _ _ _ _ R Hv) as (v1 & Hv1 & Hle1).
    destruct (IH _ Hv1) as (v' & Hv' & Hle). exists v'. split; [done | lia].
Qed.

Lemma relax_appends (c : Cell) (g : Z) (n : Cell) (st st' : state) :
  relax end_ c g n st = Ok st' ->
  open_set st' = open_set st \/ exists e, open_set st' = open_set st ++ [e].
Proof.
  intros R. apply relax_inv in R as [[_ ->] | (_ & h & x & _ & _ & ->)]; [by left |].
  right. by eexists.
Qed.

End Scores.

(** ** One result per input *)

Lemma do_a_star_unique {F : PyFloat} (grid : Grid) (start goal : Cell)
    (rnd1 rnd2 : nat -> Z) (fuel1 fuel2 : nat) (w1 w2 w1' w2' : world)
    (r1 r2 : res (list Cell)) :
  do_a_star rnd1 fuel1 grid start goal w1 = Some (w1', r1) ->
  do_a_star rnd2 fuel2 grid start goal w2 = Some (w2', r2) ->
  r1 = r2.
Proof.
  intros H1 H2.
  destruct (do_a_star_cases rnd1 fuel1 grid start goal w1)
    as [[Eg E1] | [(Hh & Ew & u1 & E1) | (Hh & Hw & E1)]];
  destruct (do_a_star_cases rnd2 fuel2 grid start goal w2)
    as [[Eg' E2] | [(Hh' & Ew' & u2 & E2) | (Hh' & Hw' & E2)]];
  rewrite E1 in H1; rewrite E2 in H2; try congruence; try lia;
    try (subst grid; unfold height in *; simpl in *; lia).
  set (m := (fuel1 `max` fuel2)%nat).
  apply (search_mono _ _ _ _ _ fuel1 m fuel1 m) in H1; [| lia | lia].
  apply (search_mono _ _ _ _ _ fuel2 m fuel2 m) in H2; [| lia | lia].
  pose proof (search_world grid start goal (height grid) (width grid) m m
                (initial start) (started start w1) (started start w2)) as Hw12.
  rewrite H1, H2 in Hw12. simpl in Hw12. congruence.
Qed.

(** ** Walks and what the call returns *)

Section Returns.
Context {F : PyFloat}.

Lemma wf_gridb_ok (grid : Grid) : wf_gridb grid = true -> wf_grid grid.
Proof.
  unfold wf_gridb, wf_grid. rewrite !andb_true_iff, forallb_forall.
  intros ((((H1 & H2) & H3) & H4) & H5).
  apply Z.ltb_lt in H1, H3. apply Z.leb_le in H2, H4.
  repeat split; try done.
  apply Forall_forall. intros row Hrow. apply Z.eqb_eq, H5.
  by apply list_elem_of_In.
Qed.

Lemma free_in_grid (grid : Grid) (c : Cell) :
  wf_grid grid -> free grid c = true -> in_grid grid c.
Proof.
  intros Hwf Hc. pose proof (walkable_free grid Hwf c) as W. rewrite Hc in W.
  apply walkable_true in W. unfold in_grid. tauto.
Qed.

Lemma in_grid_small (grid : Grid) (c : Cell) :
  wf_grid grid -> in_grid grid c -> small c.
Proof.
  intros (Hh & Hw & _) [H1 H2]. unfold small.
  assert (max_size <= 2 ^ 500) by (vm_compute; discriminate).
  split; lia.
Qed.

Lemma blocked_not_free (grid : Grid) (c : Cell) :
  blocked grid c = true -> free grid c = false.
Proof.
  unfold blocked, free.
  destruct ((0 <=? c.1) && (0 <=? c.2)); simpl; [| done].
  destruct (grid !! Z.to_nat c.1) as [row |]; [| done].
  destruct (row !! Z.to_nat c.2) as [v |]; [| done].
  by destruct (v =? 1).
Qed.

Lemma blocked_in_grid (grid : Grid) (c : Cell) :
  wf_grid grid -> blocked grid c = true -> in_grid grid c.
Proof.
  intros (Hh & Hw & Hrows). unfold blocked, in_grid, height.
  destruct (Z.leb_spec 0 c.1), (Z.leb_spec 0 c.2); simpl; try done.
  destruct (grid !! Z.to_nat c.1) as [row |] eqn:E1; [| done].
  destruct (row !! Z.to_nat c.2) as [v |] eqn:E2; [| done]. intros _.
  pose proof (Forall_lookup_1 _ _ _ _ Hrows E1) as Hlen. simpl in Hlen.
  apply lookup_lt_Some in E1, E2. lia.
Qed.

Lemma free_row (grid : Grid) (c : Cell) :
  free grid c = true -> 0 <= c.1 < height grid.
Proof.
  unfold free, height.
  destruct (Z.leb_spec 0 c.1), (Z.leb_spec 0 c.2); simpl; try done.
  destruct (grid !! Z.to_nat c.1) as [row |] eqn:E; [| done]. intros _.
  apply lookup_lt_Some in E. lia.
Qed.

(** A walk between two different cells ends on a Free cell. *)
Lemma walk_goal_free (grid : Grid) (a b : Cell) (p : list Cell) :
  walk grid a b p -> a <> b -> free grid b = true.
Proof.
  intros (Hh & Hl & _ & Hf) Hne. destruct p as [| x p]; [done |].
  injection Hh as ->. destruct p as [| y p]; [simpl in Hl; congruence |].
  simpl in Hf. rewrite Forall_forall in Hf. apply Hf.
  change (last (a :: y :: p)) with (last (y :: p)) in Hl.
  by apply last_Some_elem_of in Hl.
Qed.

(** Without a walk to the goal the call returns the empty list and says
    so once. *)
Lemma no_walk_empty `{!FloatEq F} `{!FloatRange F} (rnd : nat -> Z) (fuel : nat)
    (grid : Grid) (start goal : Cell) (w : world) :
  wf_grid grid -> small goal -> (forall p, ~ walk grid start goal p) ->
  (enough_fuel grid <= fuel)%nat ->
  exists w', do_a_star rnd fuel grid start goal w = Some (w', Ok []) /\
    trace w' = trace w ++
      [Displayed "Created random path points";
       Displayed ("Start location is " ++ str_cell start);
       Displayed "No path found!"].
Proof.
  intros Hwf Hs Hno Hf.
  destruct (do_a_star_returns rnd fuel grid start goal w Hf) as [[w' r] E].
  destruct (do_a_star_normal grid Hwf rnd fuel start goal w w' r Hs E) as [path ->].
  pose proof E as E'. apply do_a_star_finish in E' as (st & B & _ & Hfin).
  destruct path as [| c path].
  - exists w'. split; [done |].
    apply finish_empty in Hfin as [_ ->]. simpl.
    by rewrite <- !(assoc_L (++)).
  - exfalso. apply (Hno (c :: path)).
    by destruct (finish_found _ _ _ _ _ _ _ _ _ _ B Hfin) as [? _].
Qed.

End Returns.

(** ** The scenarios of the specification *)

Example scenario_open_grid :
  snd <$> do_a_star (F := binary64) rnd0 50 grid_open (0, 0) (2, 2) w0
  = Some (Ok [(0, 0); (0, 1); (1, 1); (1, 2); (2, 2)]).
Proof. vm_compute. reflexivity. Qed.

Example scenario_wall :
  snd <$> do_a_star (F := binary64) rnd0 50 grid_wall (0, 0) (2, 0) w0
  = Some (Ok []).
Proof. vm_compute. reflexivity. Qed.

Example scenario_row :
  snd <$> do_a_star (F := binary64) rnd0 50 grid_row (0, 0) (0, 4) w0
  = Some (Ok [(0, 0); (0, 1); (0, 2); (0, 3); (0, 4)]).
Proof. vm_compute. reflexivity. Qed.

(** The two arithmetics agree on these inputs. *)
Example scenario_exact :
  snd <$> do_a_star (F := exact_float) rnd0 50 grid_open (0, 0) (2, 2) w0
  = snd <$> do_a_star (F := binary64) rnd0 50 grid_open (0, 0) (2, 2) w0.
Proof. vm_compute. reflexivity. Qed.

(** ** The claims *)

(** C2. Whenever [do_a_star] returns a non-empty path, its first cell is
    the start, its last cell is the goal, and each cell is the one before
    it moved by one of the offsets (0,1), (1,0), (0,-1), (-1,0).  This
    holds for every grid, start and goal and for every floating-point
    arithmetic. *)
Theorem do_a_star_path_shape {F : PyFloat} (rnd : nat -> Z) (fuel : nat)
    (grid : Grid) (start goal : Cell) (w w' : world) (path : list Cell) :
  do_a_star rnd fuel grid start goal w = Some (w', Ok path) ->
  path <> [] ->
  head path = Some start /\ last path = Some goal /\ chain path.
Proof.
  intros H Hne. apply do_a_star_finish in H as (st & B & _ & Hfin).
  destruct (finish_found _ _ _ _ _ _ _ _ _ _ B Hfin Hne) as ((P1 & P2 & P3 & _) & _).
  done.
Qed.

Lemma do_a_star_path_shape_witness :
  exists w' path,
    do_a_star (F := binary64) rnd0 50 grid_open (0, 0) (2, 2) w0 = Some (w', Ok path) /\
    path <> [] /\
    head path = Some (0, 0) /\ last path = Some (2, 2) /\ chain path.
Proof.
  eexists _, _.
  assert (R : do_a_star (F := binary64) rnd0 50 grid_open (0, 0) (2, 2) w0 =
              Some (World 18
                      [Displayed "Created random path points";
                       Displayed "Start location is (0, 0)";
                       Printed "Reconstructed Path:  [(0, 0), (0, 1), (1, 1), (1, 2), (2, 2)]";
                       Displayed "Path found!"],
                    Ok [(0, 0); (0, 1); (1, 1); (1, 2); (2, 2)]))
    by (vm_compute; reflexivity).
  split; [exact R |]. split; [discriminate |].
  exact (do_a_star_path_shape rnd0 50 grid_open (0, 0) (2, 2) w0 _ _ R
           ltac:(discriminate)).
Defined.









(** C5, as amended.  A call that returns a path draws 18 numbers from
    the random generator, invokes the reporter twice before the search
    (random points created, start location) and once when the search
    ends: "Path found!", after the path has been printed on standard
    output, when the goal is reached, and "No path found!" when the open
    set is exhausted.  It has no other effect. *)
Theorem do_a_star_effects {F : PyFloat} (rnd : nat -> Z) (fuel : nat)
    (grid : Grid) (start goal : Cell) (w w' : world) (path : list Cell) :
  do_a_star rnd fuel grid start goal w = Some (w', Ok path) ->
  rng_draws w' = (rng_draws w + 18)%nat /\
  trace w' = trace w ++
    [Displayed "Created random path points";
     Displayed ("Start location is " ++ str_cell start)] ++ closing path.
Proof.
  intros H. apply do_a_star_finish in H as (st & B & _ & Hfin).
  destruct path as [| c path].
  - apply finish_empty in Hfin as [_ ->]. simpl. split; [done |].
    by rewrite <- !(assoc_L (++)).
  - destruct (finish_found _ _ _ _ _ _ _ _ _ _ B Hfin) as (_ & _ & _ & ->); [done |].
    simpl. split; [done |]. by rewrite <- !(assoc_L (++)).
Qed.

Lemma do_a_star_effects_witness :
  exists w' path,
    do_a_star (F := binary64) rnd0 50 grid_pair (0, 0) (0, 1) w0 = Some (w', Ok path) /\
    rng_draws w' = 18%nat /\
    trace w' = [Displayed "Created random path points";
                Displayed "Start location is (0, 0)"] ++ closing path.
Proof.
  eexists _, _.
  assert (R : do_a_star (F := binary64) rnd0 50 grid_pair (0, 0) (0, 1) w0 =
              Some (World 18
                      [Displayed "Created random path points";
                       Displayed "Start location is (0, 0)";
                       Printed "Reconstructed Path:  [(0, 0), (0, 1)]";
                       Displayed "Path found!"],
                    Ok [(0, 0); (0, 1)]))
    by (vm_compute; reflexivity).
  split; [exact R |].
  exact (do_a_star_effects rnd0 50 grid_pair (0, 0) (0, 1) w0 _ _ R).
Defined.

(** C5 as it is worded fails: on the one-row grid [[1, 1]] the call from
    (0,0) to (0,1) invokes the reporter three times, prints the path and
    draws random numbers. *)
Lemma three_reports_counterexample :
  exists w' path,
    do_a_star (F := binary64) rnd0 50 grid_pair (0, 0) (0, 1) w0 = Some (w', Ok path) /\
    reporter_log w' = ["Created random path points"; "Start location is (0, 0)";
                       "Path found!"]%string /\
    stdout w' = ["Reconstructed Path:  [(0, 0), (0, 1)]"%string] /\
    rng_draws w' = 18%nat /\
    ~ claimed_effects w0 w'.
Proof.
  eexists _, _. split; [vm_compute; reflexivity |].
  split; [reflexivity |]. split; [reflexivity |]. split; [reflexivity |].
  intros [(m1 & m2 & H) _]. simpl in H. discriminate H.
Qed.












(** * Further properties of the code *)

(** ** The heuristic *)

(** X1. [heuristic] is symmetric and depends only on the difference of
    its arguments: moving both cells by the same offset changes
    nothing, exceptions included.  For every float arithmetic. *)
Theorem heuristic_symmetric {F : PyFloat} (a b t : Cell) :
  heuristic a b = heuristic b a /\
  heuristic (a.1 + t.1, a.2 + t.2) (b.1 + t.1, b.2 + t.2) = heuristic a b.
Proof.
  unfold heuristic. simpl. split.
  - replace ((b.1 - a.1) ^ 2 + (b.2 - a.2) ^ 2)
      with ((a.1 - b.1) ^ 2 + (a.2 - b.2) ^ 2) by lia. done.
  - replace (a.1 + t.1 - (b.1 + t.1)) with (a.1 - b.1) by lia.
    replace (a.2 + t.2 - (b.2 + t.2)) with (a.2 - b.2) by lia. done.
Qed.

Lemma heuristic_exact_inv (a b : Cell) (h : Exact.num) :
  heuristic (F := exact_float) a b = Ok h ->
  h = Exact.Num 0 (sq_dist a b) /\ sq_dist a b < Exact.overflow_threshold.
Proof.
  intros H. apply (heuristic_inv (F := exact_float)) in H as (x & Hx & ->). simpl in *.
  unfold Exact.of_int in Hx. fold (sq_dist a b) in Hx.
  assert (0 <= sq_dist a b) by (unfold sq_dist; nia).
  destruct (Z.ltb_spec (Z.abs (sq_dist a b)) Exact.overflow_threshold); [| done].
  injection Hx as <-. unfold Exact.pow_half. simpl.
  destruct (Z.leb_spec 0 (sq_dist a b)); [| lia]. split; [done | lia].
Qed.

Lemma sqrt_IZR_le (n m : Z) : 0 <= m -> n <= m * m -> (sqrt (IZR n) <= IZR m)%R.
Proof.
  intros Hm Hn. rewrite <- (sqrt_Rsqr (IZR m)) by (by apply IZR_le).
  apply sqrt_le_1_alt. unfold Rsqr. rewrite <- mult_IZR. by apply IZR_le.
Qed.

Lemma sqrt_IZR_ge (n m : Z) : 0 <= m -> m * m <= n -> (IZR m <= sqrt (IZR n))%R.
Proof.
  intros Hm Hn. rewrite <- (sqrt_Rsqr (IZR m)) by (by apply IZR_le).
  apply sqrt_le_1_alt. unfold Rsqr. rewrite <- mult_IZR. by apply IZR_le.
Qed.



Lemma sq_dist_step (a b e : Cell) :
  is_step a b ->
  exists u v : Z,
    sq_dist a e = sq_dist b e + 2 * u + 1 /\ u * u <= sq_dist b e /\
    sq_dist b e = sq_dist a e + 2 * v + 1 /\ v * v <= sq_dist a e.
Proof.
  unfold is_step, movements, sq_dist.
  rewrite !elem_of_cons, elem_of_nil. rewrite !Z.pow_2_r.
  pose proof (Z.square_nonneg (a.1 - e.1)) as Na1.
  pose proof (Z.square_nonneg (a.2 - e.2)) as Na2.
  pose proof (Z.square_nonneg (b.1 - e.1)) as Nb1.
  pose proof (Z.square_nonneg (b.2 - e.2)) as Nb2.
  intros [H3 | [H3 | [H3 | [H3 | []]]]]; injection H3 as H1 H2.
  - exists (- (b.2 - e.2)), (a.2 - e.2).
    replace (b.1 - e.1) with (a.1 - e.1) in * by lia.
    replace (b.2 - e.2) with (a.2 - e.2 + 1) in * by lia. lia.
  - exists (- (b.1 - e.1)), (a.1 - e.1).
    replace (b.2 - e.2) with (a.2 - e.2) in * by lia.
    replace (b.1 - e.1) with (a.1 - e.1 + 1) in * by lia. lia.
  - exists (b.2 - e.2), (- (a.2 - e.2)).
    replace (b.1 - e.1) with (a.1 - e.1) in * by lia.
    replace (a.2 - e.2) with (b.2 - e.2 + 1) in * by lia. lia.
  - exists (b.1 - e.1), (- (a.1 - e.1)).
    replace (b.2 - e.2) with (a.2 - e.2) in * by lia.
    replace (a.1 - e.1) with (b.1 - e.1 + 1) in * by lia. lia.
Qed.



(** ** The returned path *)

Section ReturnedPath.
Context {F : PyFloat}.
Variable grid : Grid.
Variables start end_ : Cell.
Variables COL ROW : Z.

Local Abbreviation basic' := (basic grid start end_ COL ROW).

Lemma ancestry_members (ps : gmap Cell Cell) (c r : Cell) (l : list Cell) :
  ancestry ps c l r -> forall x, x ∈ l -> is_Some (ps !! x).
Proof.
  induction 1 as [c E | c p l r E A IH]; intros x Hx.
  - by apply not_elem_of_nil in Hx.
  - apply elem_of_cons in Hx as [-> | Hx]; [by eexists | by apply IH].
Qed.

Lemma ancestry_root_none (ps : gmap Cell Cell) (c r : Cell) (l : list Cell) :
  ancestry ps c l r -> ps !! r = None.
Proof. by induction 1. Qed.

(** The g-scores do not increase along the loop. *)
Lemma ancestry_scores (st : state) (c r : Cell) (l : list Cell) :
  basic' st -> ancestry (parents st) c l r ->
  forall x, x ∈ l ->
    exists gx gc, g_scores st !! x = Some gx /\ g_scores st !! c = Some gc /\ gx <= gc.
Proof.
  intros B. induction 1 as [c E | c p l r E A IH]; intros x Hx.
  - by apply not_elem_of_nil in Hx.
  - destruct (b_desc _ _ _ _ _ _ B _ _ E) as (gn & gp & E1 & E2 & Hle).
    apply elem_of_cons in Hx as [-> | Hx].
    + exists gn, gn. split; [done |]. split; [done | lia].
    + destruct (IH x Hx) as (gx & gp' & Ex & Ep & Hle').
      rewrite E2 in Ep. injection Ep as <-.
      exists gx, gn. split; [done |]. split; [done | lia].
Qed.

Lemma ancestry_nodup (st : state) (c r : Cell) (l : list Cell) :
  basic' st -> ancestry (parents st) c l r -> NoDup l.
Proof.
  intros B. induction 1 as [c E | c p l r E A IH]; [constructor |].
  constructor; [| done].
  intros Hc. destruct (ancestry_scores st p r l B A c Hc) as (gx & gp & Ex & Ep & Hle).
  destruct (b_desc _ _ _ _ _ _ B _ _ E) as (gn & gp' & E1 & E2 & Hlt).
  rewrite Ex in E1. rewrite Ep in E2. injection E1 as <-. injection E2 as <-. lia.
Qed.

Lemma ancestry_cells (st : state) (c r : Cell) (l : list Cell) :
  basic' st -> ancestry (parents st) c l r ->
  Forall (fun n => 0 <= n.1 < COL /\ 0 <= n.2 < ROW /\ free grid n = true) l.
Proof.
  intros B A. apply Forall_forall. intros x Hx.
  destruct (ancestry_members _ _ _ _ A x Hx) as [p Hp].
  by apply (b_free _ _ _ _ _ _ B) in Hp.
Qed.

(** A non-empty result lists, behind the start, the cells that the
    reconstruction loop met on its way up from the goal. *)
Lemma finish_ancestry (pfuel : nat) (st : state) (w w' : world) (path : list Cell) :
  basic' st -> finish grid start end_ COL ROW pfuel st w w' (Ok path) -> path <> [] ->
  exists l cur, path = start :: rev l /\ ancestry (parents st) end_ l start /\
    py_min (open_set st) = Ok cur /\ e_node cur = end_.
Proof.
  intros B [(_ & [= <-] & _) | [(_ & e & _ & [=] & _) | (_ & c & st1 & l & It & Bt & [= ->] & ->)]] Hne;
    [done |].
  apply iteration_inv in It as (cur & open' & Hmin & Hrem & [[E [= -> ->]] | (_ & ? & _ & [=])]).
  simpl in Bt. rewrite E in Bt.
  apply backtrack_inv in Bt as (l' & r & -> & A). simpl in *.
  pose proof (py_min_elem _ _ Hmin) as Hcur.
  destruct (b_open _ _ _ _ _ _ B _ Hcur) as (Hl & _).
  rewrite E in Hl.
  pose proof (ancestry_root_start _ _ _ _ _ _ _ _ _ B A Hl) as ->.
  exists l', cur. split; [by rewrite rev_app_distr |]. done.
Qed.

End ReturnedPath.

Lemma rev_is_reverse {A} (l : list A) : rev l = reverse l.
Proof. apply rev_alt. Qed.

Lemma do_a_star_ancestry {F : PyFloat} (rnd : nat -> Z) (fuel : nat) (grid : Grid)
    (start goal : Cell) (w w' : world) (path : list Cell) :
  do_a_star rnd fuel grid start goal w = Some (w', Ok path) -> path <> [] ->
  exists st l cur,
    basic grid start goal (height grid) (width grid) st /\
    settled grid goal (height grid) (width grid) st /\
    path = start :: rev l /\ ancestry (parents st) goal l start /\
    py_min (open_set st) = Ok cur /\ e_node cur = goal.
Proof.
  intros H Hne. apply do_a_star_finish in H as (st & B & S & Hfin).
  destruct (finish_ancestry grid start goal (height grid) (width grid) fuel st
              _ _ path B Hfin Hne) as (l & cur & ? & ? & ? & ?).
  by exists st, l, cur.
Qed.

(** X4. Every cell of a returned path after the first one lies inside
    the grid, within the rows and within the length of the first row,
    and holds [1].  For every grid, jagged ones included, every start
    and goal and every float arithmetic; the first cell, the start, is
    never looked up. *)
Theorem do_a_star_path_free {F : PyFloat} (rnd : nat -> Z) (fuel : nat)
    (grid : Grid) (start goal : Cell) (w w' : world) (path : list Cell) :
  do_a_star rnd fuel grid start goal w = Some (w', Ok path) ->
  Forall (fun c => in_grid grid c /\ free grid c = true) (tail path).
Proof.
  intros H. destruct path as [| c path]; [constructor |].
  apply do_a_star_ancestry in H as (st & l & cur & B & _ & [= -> ->] & A & _); [| done].
  simpl. apply Forall_rev.
  eapply Forall_impl; [by apply (ancestry_cells _ _ _ _ _ _ _ _ _ B A) |].
  simpl. unfold in_grid. tauto.
Qed.

Lemma do_a_star_path_free_witness :
  exists w' path,
    do_a_star (F := binary64) rnd0 50 grid_wide_rows (0, 0) (2, 1) w0 = Some (w', Ok path) /\
    path <> [] /\
    Forall (fun c => in_grid grid_wide_rows c /\ free grid_wide_rows c = true) (tail path).
Proof.
  eexists _, _. split; [vm_compute; reflexivity |]. split; [done |].
  eapply (do_a_star_path_free (F := binary64) rnd0 50 grid_wide_rows (0, 0) (2, 1) w0).
  vm_compute. reflexivity.
Defined.

(** X5. A returned path visits no cell twice. *)
Theorem do_a_star_path_nodup {F : PyFloat} (rnd : nat -> Z) (fuel : nat)
    (grid : Grid) (start goal : Cell) (w w' : world) (path : list Cell) :
  do_a_star rnd fuel grid start goal w = Some (w', Ok path) -> NoDup path.
Proof.
  intros H. destruct path as [| c path]; [constructor |].
  apply do_a_star_ancestry in H as (st & l & cur & B & _ & [= -> ->] & A & _); [| done].
  rewrite rev_is_reverse. constructor.
  - rewrite elem_of_reverse. intros Hs.
    destruct (ancestry_members _ _ _ _ A _ Hs) as [p Hp].
    rewrite (ancestry_root_none _ _ _ _ A) in Hp. done.
  - rewrite reverse_Permutation. by apply (ancestry_nodup _ _ _ _ _ _ _ _ _ B A).
Qed.

Lemma do_a_star_path_nodup_witness :
  exists w' path,
    do_a_star (F := binary64) rnd0 50 grid_open (0, 0) (2, 2) w0 = Some (w', Ok path) /\
    path <> [] /\ NoDup path.
Proof.
  eexists _, _. split; [vm_compute; reflexivity |]. split; [done |].
  eapply (do_a_star_path_nodup (F := binary64) rnd0 50 grid_open (0, 0) (2, 2) w0).
  vm_compute. reflexivity.
Defined.

(** X6. A returned non-empty path has at least as many steps as the
    Manhattan distance from the start to the goal and at most as many
    as the grid has cells. *)
Theorem do_a_star_path_length {F : PyFloat} (rnd : nat -> Z) (fuel : nat)
    (grid : Grid) (start goal : Cell) (w w' : world) (path : list Cell) :
  do_a_star rnd fuel grid start goal w = Some (w', Ok path) -> path <> [] ->
  manhattan start goal <= Z.of_nat (length path) - 1 <= height grid * width grid.
Proof.
  intros H Hne. apply do_a_star_finish in H as (st & B & _ & Hfin).
  destruct (finish_found _ _ _ _ _ _ _ _ _ _ B Hfin Hne)
    as ((P1 & P2 & P3 & _) & (cur & Hmin & _ & Hlen) & _).
  split; [by apply manhattan_chain |].
  apply py_min_elem in Hmin.
  destruct (b_open _ _ _ _ _ _ B _ Hmin) as (_ & _ & Hk & _).
  pose proof (known_count_le start (height grid) (width grid) st) as Hc.
  rewrite length_cells in Hc.
  assert (0 <= height grid /\ 0 <= width grid) as [? ?].
  { unfold height, width. destruct grid; lia. }
  nia.
Qed.

Lemma do_a_star_path_length_witness :
  exists w' path,
    do_a_star (F := binary64) rnd0 50 grid_wall (0, 0) (0, 2) w0 = Some (w', Ok path) /\
    path <> [] /\
    manhattan (0, 0) (0, 2) <= Z.of_nat (length path) - 1 <= height grid_wall * width grid_wall.
Proof.
  eexists _, _. split; [vm_compute; reflexivity |]. split; [done |].
  eapply (do_a_star_path_length (F := binary64) rnd0 50 grid_wall (0, 0) (0, 2) w0).
  - vm_compute. reflexivity.
  - done.
Defined.

(** ** Completeness *)

Lemma same_cell_run {F : PyFloat} `{!FloatEq F} (rnd : nat -> Z) (fuel : nat)
    (grid : Grid) (start : Cell) (w : world) :
  0 < height grid -> 0 < width grid -> (0 < fuel)%nat ->
  exists w', do_a_star rnd fuel grid start start w = Some (w', Ok [start]).
Proof.
  intros Hh Hw Hf.
  destruct (do_a_star_cases rnd fuel grid start start w)
    as [[E _] | [(_ & E & _) | (_ & _ & ->)]].
  - rewrite E in Hh. unfold height in Hh. simpl in Hh. lia.
  - lia.
  - destruct fuel as [| fuel]; [lia |].
    cbn [search initial open_set]. unfold iteration.
    cbn [initial open_set py_min min_from res_bind py_remove].
    rewrite entry_eqb_refl. cbn [res_bind e_node]. rewrite cell_eqb_refl.
    cbn [backtrack parents initial]. rewrite lookup_empty. by eexists.
Qed.

Lemma enough_fuel_pos (grid : Grid) : (0 < enough_fuel grid)%nat.
Proof. unfold enough_fuel. lia. Qed.



(** ** Grids without obstacles *)

Lemma unobstructedb_ok (grid : Grid) :
  wf_grid grid -> unobstructedb grid = true -> unobstructed grid.
Proof.
  intros (_ & _ & Hrows) Hb c [H1 H2]. unfold free, height in *.
  destruct (Z.leb_spec 0 c.1), (Z.leb_spec 0 c.2); try lia. simpl.
  destruct (lookup_lt_is_Some_2 grid (Z.to_nat c.1)) as [row Hrow]; [lia |].
  rewrite Hrow.
  pose proof (Forall_lookup_1 _ _ _ _ Hrows Hrow) as Hlen. simpl in Hlen.
  destruct (lookup_lt_is_Some_2 row (Z.to_nat c.2)) as [v Hv]; [lia |].
  rewrite Hv.
  unfold unobstructedb in Hb. rewrite forallb_forall in Hb.
  assert (Hr : forallb (Z.eqb 1) row = true).
  { apply Hb. apply list_elem_of_In. by apply list_elem_of_lookup_2 with (Z.to_nat c.1). }
  rewrite forallb_forall in Hr.
  assert (Hv1 : (1 =? v) = true).
  { apply Hr. apply list_elem_of_In. by apply list_elem_of_lookup_2 with (Z.to_nat c.2). }
  lia.
Qed.

(** Without obstacles a walk of Manhattan length joins any two cells. *)
Lemma manhattan_walk (grid : Grid) (b : Cell) :
  unobstructed grid -> in_grid grid b ->
  forall (n : nat) (a : Cell), in_grid grid a -> Z.to_nat (manhattan a b) = n ->
    exists p, walk grid a b p /\ Z.of_nat (length p) = manhattan a b + 1.
Proof.
  intros Hu Hb. induction n as [| n IH]; intros a Ha Hn.
  - assert (a = b) as ->.
    { unfold manhattan in Hn. destruct a, b. simpl in *. f_equal; lia. }
    exists [b]. split; [repeat split; simpl; constructor |].
    unfold manhattan. simpl. lia.
  - set (a' := if decide (a.1 < b.1) then (a.1 + 1, a.2)
               else if decide (b.1 < a.1) then (a.1 - 1, a.2)
               else if decide (a.2 < b.2) then (a.1, a.2 + 1)
               else (a.1, a.2 - 1)).
    assert (is_step a a' /\ in_grid grid a' /\
            manhattan a' b = manhattan a b - 1) as (Hs & Ha' & Hm).
    { unfold is_step, movements, in_grid, manhattan in *. subst a'.
      destruct Ha as [A1 A2], Hb as [B1 B2].
      repeat case_decide; simpl;
        (split; [| split; [lia | lia]]).
      - replace (a.1 + 1 - a.1) with 1 by lia. replace (a.2 - a.2) with 0 by lia.
        repeat constructor.
      - replace (a.1 - 1 - a.1) with (-1) by lia. replace (a.2 - a.2) with 0 by lia.
        repeat constructor.
      - replace (a.1 - a.1) with 0 by lia. replace (a.2 + 1 - a.2) with 1 by lia.
        repeat constructor.
      - replace (a.1 - a.1) with 0 by lia. replace (a.2 - 1 - a.2) with (-1) by lia.
        repeat constructor. }
    destruct (IH a' Ha') as (p & (P1 & P2 & P3 & P4) & Hlen); [lia |].
    destruct p as [| x p]; [done |]. injection P1 as ->.
    exists (a :: a' :: p). split.
    + split; [done |]. split; [done |]. split; [by split |].
      simpl. constructor; [by apply Hu | done].
    + simpl length in *. lia.
Qed.



(** ** The states of the main loop *)

Section Visited.
Context {F : PyFloat}.
Variable grid : Grid.
Variables start end_ : Cell.
Variables COL ROW : Z.

Local Abbreviation basic' := (basic grid start end_ COL ROW).
Local Abbreviation sound' := (sound start COL ROW).

Lemma rooted_initial : rooted start (initial start).
Proof.
  split; simpl; [apply lookup_empty |].
  intros n Hn [v Hv]. apply lookup_singleton_Some in Hv as [? _]. congruence.
Qed.

Lemma rooted_relax (st st' : state) (c : Cell) (g : Z) (n : Cell) :
  basic' st -> 0 <= g -> relax end_ c g n st = Ok st' ->
  rooted start st -> rooted start st'.
Proof.
  intros B Hg R [R1 R2].
  apply relax_inv in R as [[_ ->] | (I & h & x & _ & _ & ->)]; [done |].
  assert (Hns : n <> start).
  { intros ->. unfold improves in I. rewrite (b_start _ _ _ _ _ _ B) in I.
    apply Z.ltb_lt in I. lia. }
  split; simpl.
  - by rewrite lookup_insert_ne.
  - intros m Hm Hs. destruct (decide (m = n)) as [-> | Hmn].
    + rewrite lookup_insert_eq. by eexists.
    + rewrite lookup_insert_ne in Hs by done. rewrite lookup_insert_ne by done.
      by apply R2.
Qed.

Lemma rooted_next (st st' : state) :
  basic' st -> rooted start st ->
  iteration grid end_ COL ROW st = Ok (Next st') -> rooted start st'.
Proof.
  intros B Rt It.
  apply iteration_inv in It as (cur & open' & Hmin & Hrem & [[_ [=]] | (Hne & st1 & E & [= ->])]).
  pose proof (py_min_elem _ _ Hmin) as Hcur.
  pose proof (b_open _ _ _ _ _ _ B _ Hcur) as S.
  pose proof (basic_subset _ _ _ _ _ _ _ B (py_remove_subset _ _ _ Hrem)) as B1.
  set (st0 := State open' (g_scores st) (parents st)) in *.
  assert (S0 : sound' st0 (e_node cur) (e_g cur)) by done.
  assert (basic' st1 /\ sound' st1 (e_node cur) (e_g cur) /\ rooted start st1)
    as (_ & _ & ?); [| done].
  apply (expand_preserves grid end_ COL ROW
           (fun s => basic' s /\ sound' s (e_node cur) (e_g cur) /\ rooted start s)
           (e_node cur) (e_g cur)) with (st := st0); [| done | done].
  intros d s s' Hd (Bs & Ss & Rs) W R.
  destruct (basic_relax _ _ _ _ _ _ _ _ _ _ Bs Ss Hd W R) as [Bs' Ss'].
  split; [done |]. split; [done |].
  apply (rooted_relax s s' (e_node cur) (e_g cur) _ Bs (proj1 (proj2 Ss)) R Rs).
Qed.

(** From a cell with a g-score the parent links lead back to the start
    in at most as many steps as the score says. *)
Lemma scored_walk (st : state) (n : Cell) (v : Z) :
  basic' st -> rooted start st -> g_scores st !! n = Some v ->
  exists p, walk grid start n p /\ Z.of_nat (length p) - 1 <= v.
Proof.
  intros B [R1 R2] Hv.
  destruct (backtrack_terminates grid start end_ COL ROW st (S (Z.to_nat v)) n v [] B Hv)
    as [path Hb]; [lia |].
  apply backtrack_inv in Hb as (l & r & _ & A).
  assert (r = start) as ->.
  { apply (ancestry_root_start _ _ _ _ _ _ _ _ _ B A).
    destruct (decide (n = start)) as [-> | Hn]; [by left | right].
    apply R2; [done | by eexists]. }
  destruct (ancestry_path _ _ _ _ _ _ _ _ _ B A) as (P1 & P2 & P3 & P4 & P5).
  exists (rev (l ++ [start])). split; [done |].
  specialize (P5 _ Hv). rewrite length_rev, length_app. simpl. lia.
Qed.

End Visited.

Lemma visited_inv {F : PyFloat} (grid : Grid) (start goal : Cell) (st : state) :
  visited grid start goal st ->
  basic grid start goal (height grid) (width grid) st /\
  settled grid goal (height grid) (width grid) st /\
  rooted start st.
Proof.
  unfold visited. revert st.
  apply (rtc_ind_r (fun s => basic grid start goal (height grid) (width grid) s /\
                             settled grid goal (height grid) (width grid) s /\
                             rooted start s)).
  - split; [apply basic_initial |]. split; [apply settled_initial | apply rooted_initial].
  - intros s s' Hs Hstep (B & S & Rt). unfold next_round in Hstep. split; [| split].
    + by apply (iteration_next _ _ _ _ _ _ _ B Hstep).
    + by apply (settled_next _ _ _ _ _ _ S Hstep).
    + by apply (rooted_next _ _ _ _ _ _ _ B Rt Hstep).
Qed.

(** X9. In every state that the main loop visits, the parent links form
    a tree rooted at the start: the start has g-score 0 and no parent;
    every other cell has a parent exactly when it has a g-score; and a
    cell with a parent is a Free cell of the grid, is one step away
    from the parent, and has a g-score larger than the parent's. *)
Theorem visited_tree {F : PyFloat} (grid : Grid) (start goal : Cell) (st : state) :
  visited grid start goal st ->
  g_scores st !! start = Some 0 /\ parents st !! start = None /\
  (forall n, n <> start ->
     (is_Some (g_scores st !! n) <-> is_Some (parents st !! n))) /\
  (forall n p, parents st !! n = Some p ->
     is_step p n /\ in_grid grid n /\ free grid n = true /\
     exists gn gp, g_scores st !! n = Some gn /\ g_scores st !! p = Some gp /\
                   gp + 1 <= gn).
Proof.
  intros H. apply visited_inv in H as (B & _ & R1 & R2).
  split; [by apply (b_start _ _ _ _ _ _ B) |]. split; [done |]. split.
  - intros n Hn. split; [by apply R2 |].
    intros [p Hp]. destruct (b_desc _ _ _ _ _ _ B _ _ Hp) as (gn & _ & -> & _).
    by eexists.
  - intros n p Hp.
    split; [by apply (b_step _ _ _ _ _ _ B) in Hp |].
    destruct (b_free _ _ _ _ _ _ B _ _ Hp) as (? & ? & ?).
    split; [by split |]. split; [done |].
    by apply (b_desc _ _ _ _ _ _ B) in Hp.
Qed.

Lemma visited_tree_witness :
  exists st,
    next_round (F := binary64) grid_open (2, 2) 3 3 (initial (0, 0)) st /\
    g_scores st !! (0, 0) = Some 0 /\ parents st !! (0, 0) = None /\
    (forall n, n <> (0, 0) ->
       (is_Some (g_scores st !! n) <-> is_Some (parents st !! n))) /\
    (forall n p, parents st !! n = Some p ->
       is_step p n /\ in_grid grid_open n /\ free grid_open n = true /\
       exists gn gp, g_scores st !! n = Some gn /\ g_scores st !! p = Some gp /\
                     gp + 1 <= gn).
Proof.
  assert (H : goes_on (iteration (F := binary64) grid_open (2, 2) 3 3 (initial (0, 0)))
              = true) by (vm_compute; reflexivity).
  destruct (iteration (F := binary64) grid_open (2, 2) 3 3 (initial (0, 0)))
    as [[c st1 | st1] | e] eqn:E1; [discriminate H | | discriminate H].
  exists st1. split; [exact E1 |].
  apply (visited_tree (F := binary64) grid_open (0, 0) (2, 2) st1).
  apply rtc_once. exact E1.
Defined.







(** ** Exceptions *)

Lemma do_a_star_empty_row {F : PyFloat} (rnd : nat -> Z) (fuel : nat)
    (rest : Grid) (start goal : Cell) (w : world) :
  do_a_star rnd fuel ([] :: rest) start goal w
  = Some (World (S (rng_draws w)) (trace w), Raise ValueError).
Proof.
  unfold do_a_star. rewrite py_index_first.
  cbn [random_points]. rewrite randint_ok by (simpl length; lia).
  unfold randint. simpl. done.
Qed.

(** X13. Degenerate grids.  On the empty grid the call raises
    [IndexError] at [grid[0]], before any effect.  On a grid whose first
    row is empty it raises [ValueError] in the second [random.randint]
    of line 56, after one number has been drawn and before any message.
    Neither depends on the start, the goal or the other rows. *)
Theorem do_a_star_degenerate {F : PyFloat} (rnd : nat -> Z) (fuel : nat)
    (rest : Grid) (start goal : Cell) (w : world) :
  do_a_star rnd fuel [] start goal w = Some (w, Raise IndexError) /\
  do_a_star rnd fuel ([] :: rest) start goal w
  = Some (World (S (rng_draws w)) (trace w), Raise ValueError).
Proof. split; [done | apply do_a_star_empty_row]. Qed.

Section Raising.
Context {F : PyFloat}.
Variable grid : Grid.
Variables start end_ : Cell.
Variables COL ROW : Z.

Lemma py_index_raise {A} (l : list A) (i : Z) (e : exn) :
  py_index l i = Raise e -> e = IndexError.
Proof.
  unfold py_index.
  destruct ((0 <=? i) && (i <? Z.of_nat (length l))).
  - destruct (l !! Z.to_nat i); congruence.
  - destruct ((- Z.of_nat (length l) <=? i) && (i <? 0)); [| congruence].
    destruct (l !! Z.to_nat (Z.of_nat (length l) + i)); congruence.
Qed.

Lemma walkable_raise (n : Cell) (e : exn) :
  walkable grid COL ROW n = Raise e -> e = IndexError.
Proof.
  unfold walkable.
  destruct ((0 <=? n.1) && (n.1 <? COL) && (0 <=? n.2) && (n.2 <? ROW)); [| done].
  destruct (py_index grid n.1) as [row |] eqn:E1; cbn [res_bind].
  - destruct (py_index row n.2) as [v |] eqn:E2; cbn [res_bind]; [done |].
    intros [= <-]. by apply py_index_raise in E2.
  - intros [= <-]. by apply py_index_raise in E1.
Qed.

Lemma relax_raise (c : Cell) (g : Z) (n : Cell) (st : state) (e : exn) :
  relax end_ c g n st = Raise e -> e = OverflowError.
Proof.
  unfold relax, heuristic, int_to_float.
  destruct (improves (g + 1) n st); [| done].
  destruct (float_of_int ((n.1 - end_.1) ^ 2 + (n.2 - end_.2) ^ 2)); cbn [res_bind];
    [| congruence].
  destruct (float_of_int (g + 1)); cbn [res_bind]; congruence.
Qed.

Lemma expand_raise (c : Cell) (g : Z) (moves : list (Z * Z)) (st : state) (e : exn) :
  expand grid end_ COL ROW c g moves st = Raise e ->
  (e = IndexError /\ exists n, walkable grid COL ROW n = Raise IndexError) \/
  e = OverflowError.
Proof.
  revert st. induction moves as [| [dx dy] moves IH]; intros st; simpl; [done |].
  destruct (walkable grid COL ROW (c.1 + dx, c.2 + dy)) as [[|] | e'] eqn:W;
    cbn [res_bind].
  - destruct (relax end_ c g (c.1 + dx, c.2 + dy) st) as [st1 | e'] eqn:R;
      cbn [res_bind]; [apply IH |].
    intros [= <-]. right. by apply relax_raise in R.
  - apply IH.
  - intros [= <-]. pose proof (walkable_raise _ _ W) as ->. left.
    split; [done |]. by eexists.
Qed.

Lemma iteration_raise `{!FloatEq F} (st : state) (e : exn) :
  open_set st <> [] -> iteration grid end_ COL ROW st = Raise e ->
  (e = IndexError /\ exists n, walkable grid COL ROW n = Raise IndexError) \/
  e = OverflowError.
Proof.
  intros Hne. unfold iteration.
  destruct (py_min_nonempty _ Hne) as [cur Hmin]. rewrite Hmin. cbn [res_bind].
  pose proof (py_min_elem _ _ Hmin) as Hcur.
  destruct (py_remove_found cur (open_set st)) as [open' Hrem].
  { exists cur. split; [done |]. apply entry_eqb_refl. }
  rewrite Hrem. cbn [res_bind].
  destruct (cell_eqb (e_node cur) end_); [done |].
  destruct (expand grid end_ COL ROW (e_node cur) (e_g cur) movements
              (State open' (g_scores st) (parents st))) as [st' | e'] eqn:E;
    cbn [res_bind]; [done |].
  intros [= <-]. by apply expand_raise in E.
Qed.

Lemma search_raise `{!FloatEq F} (pfuel fuel : nat) (st : state) (w w' : world)
    (e : exn) :
  search grid start end_ COL ROW pfuel fuel st w = Some (w', Raise e) ->
  w' = w /\
  ((e = IndexError /\ exists n, walkable grid COL ROW n = Raise IndexError) \/
   e = OverflowError).
Proof.
  intros H.
  apply (search_inv grid start end_ COL ROW (fun _ => True)) in H
    as (st0 & _ & Hfin); [| done | done].
  destruct Hfin as [(_ & [=] & _) | [(Hne & e' & It & [= <-] & ->) | (_ & c & st1 & path & _ & _ & [=] & _)]].
  split; [done |]. by apply (iteration_raise st0).
Qed.

End Raising.



(** X15. The test of line 99 raises exactly when the cell lies inside
    the rows and inside the length of the first row while its own row
    is too short to hold it; the exception is then [IndexError].  In
    every other case the test has a value. *)
Theorem walkable_raises_iff (grid : Grid) (n : Cell) (e : exn) :
  walkable grid (height grid) (width grid) n = Raise e <->
  e = IndexError /\ in_grid grid n /\
  exists row, grid !! Z.to_nat n.1 = Some row /\ Z.of_nat (length row) <= n.2.
Proof.
  unfold walkable, in_grid, height.
  destruct (Z.leb_spec 0 n.1) as [H1 | H1]; simpl.
  2: { split; [done | intros (_ & ? & _); lia]. }
  destruct (Z.ltb_spec n.1 (Z.of_nat (length grid))) as [H2 | H2]; simpl.
  2: { split; [done | intros (_ & ? & _); lia]. }
  destruct (Z.leb_spec 0 n.2) as [H3 | H3]; simpl.
  2: { split; [done | intros (_ & ? & _); lia]. }
  destruct (Z.ltb_spec n.2 (width grid)) as [H4 | H4]; simpl.
  2: { split; [done | intros (_ & ? & _); lia]. }
  destruct (lookup_lt_is_Some_2 grid (Z.to_nat n.1)) as [row Hrow]; [lia |].
  unfold py_index at 1.
  destruct (Z.leb_spec 0 n.1); [| lia].
  destruct (Z.ltb_spec n.1 (Z.of_nat (length grid))); [| lia]. simpl.
  rewrite Hrow. cbn [res_bind]. unfold py_index.
  destruct (Z.leb_spec 0 n.2); [| lia].
  destruct (Z.ltb_spec n.2 (Z.of_nat (length row))) as [Hr | Hr]; simpl.
  - destruct (lookup_lt_is_Some_2 row (Z.to_nat n.2)) as [v Hv]; [lia |].
    rewrite Hv. cbn [res_bind]. split; [done |].
    intros (_ & _ & row' & [= <-] & ?). lia.
  - destruct (Z.ltb_spec n.2 0); [lia |]. rewrite andb_false_r. cbn [res_bind].
    split.
    + intros [= <-]. split; [done |]. split; [lia |]. by exists row.
    + by intros (-> & _).
Qed.

Lemma walkable_raises_iff_witness :
  walkable grid_jagged (height grid_jagged) (width grid_jagged) (1, 2)
  = Raise IndexError.
Proof.
  apply (proj2 (walkable_raises_iff grid_jagged (1, 2) IndexError)).
  split; [reflexivity |]. split.
  - unfold in_grid, height, width. simpl. lia.
  - exists [1]. split; [reflexivity | simpl; lia].
Defined.

Example jagged_grid_raises :
  snd <$> do_a_star (F := binary64) rnd0 50 grid_jagged (0, 2) (1, 0) w0
  = Some (Raise IndexError).
Proof. vm_compute. reflexivity. Qed.

(** ** Rows longer than the first one *)

Section Trim.
Context {F : PyFloat}.

Lemma height_trim (grid : Grid) : height (trim grid) = height grid.
Proof. unfold height, trim. by rewrite length_fmap. Qed.

Lemma width_trim (grid : Grid) : width (trim grid) = width grid.
Proof.
  destruct grid as [| row0 rest]; [done |]. unfold trim, width. simpl.
  rewrite Nat2Z.id, take_ge by lia. done.
Qed.

Lemma py_index_take {A} (l : list A) (k : nat) (j : Z) :
  0 <= j < Z.of_nat k -> py_index (take k l) j = py_index l j.
Proof.
  intros Hj. unfold py_index. rewrite length_take.
  destruct (Z.leb_spec 0 j); [| lia]. simpl.
  destruct (Z.ltb_spec j 0); [lia |]. rewrite !andb_false_r.
  destruct (Z.ltb_spec j (Z.of_nat (length l))) as [Hl | Hl].
  - destruct (Z.ltb_spec j (Z.of_nat (k `min` length l))); [| lia].
    rewrite lookup_take_lt by lia. done.
  - destruct (Z.ltb_spec j (Z.of_nat (k `min` length l))); [lia | done].
Qed.

Lemma walkable_trim (grid : Grid) (n : Cell) :
  walkable (trim grid) (height grid) (width grid) n
  = walkable grid (height grid) (width grid) n.
Proof.
  unfold walkable.
  destruct (Z.leb_spec 0 n.1) as [H1 | H1]; simpl; [| done].
  destruct (Z.ltb_spec n.1 (height grid)) as [H2 | H2]; simpl; [| done].
  destruct (Z.leb_spec 0 n.2) as [H3 | H3]; simpl; [| done].
  destruct (Z.ltb_spec n.2 (width grid)) as [H4 | H4]; simpl; [| done].
  unfold height in H2.
  destruct (lookup_lt_is_Some_2 grid (Z.to_nat n.1)) as [row Hrow]; [lia |].
  assert (E1 : py_index grid n.1 = Ok row).
  { unfold py_index. destruct (Z.leb_spec 0 n.1); [| lia].
    destruct (Z.ltb_spec n.1 (Z.of_nat (length grid))); [| lia]. simpl.
    by rewrite Hrow. }
  assert (E2 : py_index (trim grid) n.1 = Ok (take (Z.to_nat (width grid)) row)).
  { unfold py_index, trim. rewrite length_fmap.
    destruct (Z.leb_spec 0 n.1); [| lia].
    destruct (Z.ltb_spec n.1 (Z.of_nat (length grid))); [| lia]. simpl.
    by rewrite list_lookup_fmap, Hrow. }
  rewrite E1, E2. cbn [res_bind].
  rewrite py_index_take by lia. done.
Qed.

Variables g1 g2 : Grid.
Variables start end_ : Cell.
Variables COL ROW : Z.
Hypothesis same_test : forall n, walkable g1 COL ROW n = walkable g2 COL ROW n.

Lemma expand_ext (c : Cell) (g : Z) (moves : list (Z * Z)) (st : state) :
  expand g1 end_ COL ROW c g moves st = expand g2 end_ COL ROW c g moves st.
Proof.
  revert st. induction moves as [| [dx dy] moves IH]; intros st; simpl; [done |].
  rewrite same_test.
  destruct (walkable g2 COL ROW (c.1 + dx, c.2 + dy)) as [[|] |]; cbn [res_bind];
    [| apply IH | done].
  destruct (relax end_ c g (c.1 + dx, c.2 + dy) st); cbn [res_bind]; [apply IH | done].
Qed.

Lemma iteration_ext (st : state) :
  iteration g1 end_ COL ROW st = iteration g2 end_ COL ROW st.
Proof.
  unfold iteration.
  destruct (py_min (open_set st)) as [cur |]; cbn [res_bind]; [| done].
  destruct (py_remove cur (open_set st)) as [open' |]; cbn [res_bind]; [| done].
  by rewrite expand_ext.
Qed.

Lemma search_ext (pfuel fuel : nat) (st : state) (w : world) :
  search g1 start end_ COL ROW pfuel fuel st w
  = search g2 start end_ COL ROW pfuel fuel st w.
Proof.
  revert st. induction fuel as [| fuel IH]; intros st; simpl; [done |].
  destruct (open_set st); [done |].
  rewrite iteration_ext.
  destruct (iteration g2 end_ COL ROW st) as [[c st1 | st'] |]; [done | apply IH | done].
Qed.

End Trim.

Lemma trim_run_eq {F : PyFloat} (rnd : nat -> Z) (fuel : nat) (grid : Grid)
    (start goal : Cell) (w : world) :
  do_a_star rnd fuel (trim grid) start goal w = do_a_star rnd fuel grid start goal w.
Proof.
  destruct (do_a_star_cases rnd fuel grid start goal w)
    as [[-> _] | [(Hh & Hw & _) | (Hh & Hw & ->)]]; [done | |].
  - destruct grid as [| [| v row0] rest]; [done | | done].
    unfold trim. simpl. by rewrite !do_a_star_empty_row.
  - destruct (do_a_star_cases rnd fuel (trim grid) start goal w)
      as [[E _] | [(_ & E & _) | (_ & _ & ->)]].
    + apply (f_equal height) in E. rewrite height_trim in E.
      unfold height in E at 2. simpl in E. lia.
    + rewrite width_trim in E. lia.
    + rewrite height_trim, width_trim. apply search_ext. apply walkable_trim.
Qed.

(** X16. The call never reads a grid cell beyond the length of the first
    row: cutting every row to that length changes neither the result,
    nor the exception, nor the effects.  For every grid, start, goal and
    float arithmetic. *)
Theorem do_a_star_trim {F : PyFloat} (rnd : nat -> Z) (fuel : nat) (grid : Grid)
    (start goal : Cell) (w : world) :
  do_a_star rnd fuel (trim grid) start goal w = do_a_star rnd fuel grid start goal w.
Proof. apply trim_run_eq. Qed.

Lemma rows_coverb_ok (grid : Grid) : rows_coverb grid = true -> rows_cover grid.
Proof.
  unfold rows_coverb, rows_cover. rewrite !andb_true_iff, forallb_forall.
  intros ((((H1 & H2) & H3) & H4) & H5).
  split; [lia |]. split; [lia |].
  apply Forall_forall. intros row Hrow. apply list_elem_of_In in Hrow.
  specialize (H5 row Hrow). lia.
Qed.

Lemma wf_trim (grid : Grid) : rows_cover grid -> wf_grid (trim grid).
Proof.
  intros (Hh & Hw & Hrows). unfold wf_grid.
  rewrite height_trim, width_trim. split; [done |]. split; [done |].
  unfold trim. apply Forall_fmap. eapply Forall_impl; [exact Hrows |].
  intros row Hrow. simpl in *. rewrite length_take. lia.
Qed.



(** ** The random points *)

(** X18. The loop of lines 55-56 draws two numbers for each point and
    appends the points to the list; every point lies inside the grid,
    whatever the generator returns.  It shows nothing. *)
Theorem random_points_in_grid (rnd : nat -> Z) (n : nat) (COL ROW : Z)
    (acc : list Cell) (w : world) :
  0 < COL -> 0 < ROW ->
  exists pts,
    random_points rnd n COL ROW acc w
    = (World (rng_draws w + 2 * n) (trace w), Ok (acc ++ pts)) /\
    length pts = n /\
    Forall (fun c => 0 <= c.1 < COL /\ 0 <= c.2 < ROW) pts.
Proof.
  intros HC HR. revert acc w. induction n as [| n IH]; intros acc w; simpl.
  - exists []. rewrite app_nil_r. split; [| split; [done | constructor]].
    destruct w. simpl. do 2 f_equal. lia.
  - rewrite !randint_ok by lia. simpl.
    set (c := (0 + rnd (rng_draws w) mod (COL - 1 - 0 + 1),
               0 + rnd (S (rng_draws w)) mod (ROW - 1 - 0 + 1))).
    destruct (IH (acc ++ [c]) (World (S (S (rng_draws w))) (trace w)))
      as (pts & -> & Hlen & Hall).
    exists (c :: pts). split; [| split].
    + simpl. rewrite <- (assoc_L (++)). simpl. do 2 f_equal. lia.
    + simpl. by rewrite Hlen.
    + constructor; [| done]. subst c. simpl.
      pose proof (Z.mod_pos_bound (rnd (rng_draws w)) (COL - 1 - 0 + 1)).
      pose proof (Z.mod_pos_bound (rnd (S (rng_draws w))) (ROW - 1 - 0 + 1)).
      lia.
Qed.

Lemma random_points_in_grid_witness :
  exists pts,
    random_points rnd0 9 3 5 [] w0
    = (World (rng_draws w0 + 2 * 9) (trace w0), Ok ([] ++ pts)) /\
    length pts = 9%nat /\
    Forall (fun c => 0 <= c.1 < 3 /\ 0 <= c.2 < 5) pts.
Proof.
  apply (random_points_in_grid rnd0 9 3 5 [] w0); lia.
Defined.

(** ** Selection and removal *)

Instance exact_keys : FloatKeys exact_float.
Proof.
  split; simpl.
  - intros x. apply ExactFacts.ltb_false. lra.
  - intros x y z Hxy Hyz.
    apply ExactFacts.ltb_spec in Hxy, Hyz. apply ExactFacts.ltb_spec. lra.
  - intros x y z. unfold Exact.eqb. rewrite andb_true_iff, !negb_true_iff.
    intros [H1 H2]. apply ExactFacts.ltb_false in H1, H2.
    destruct (Exact.ltb y z) eqn:E.
    + apply ExactFacts.ltb_spec in E. apply ExactFacts.ltb_spec. lra.
    + apply ExactFacts.ltb_false in E. apply ExactFacts.ltb_false. lra.
Qed.

Module Binary64Order.

Ltac compare_cases :=
  repeat match goal with
  | |- context [PosDef.Pos.compare_cont Eq ?a ?b] =>
      change (PosDef.Pos.compare_cont Eq a b) with (Pos.compare a b)
  | H : context [PosDef.Pos.compare_cont Eq ?a ?b] |- _ =>
      change (PosDef.Pos.compare_cont Eq a b) with (Pos.compare a b) in H
  end;
  repeat match goal with
  | |- context [Z.compare ?a ?b] => destruct (Z.compare_spec a b)
  | H : context [Z.compare ?a ?b] |- _ => destruct (Z.compare_spec a b)
  | |- context [Pos.compare ?a ?b] => destruct (Pos.compare_spec a b)
  | H : context [Pos.compare ?a ?b] |- _ => destruct (Pos.compare_spec a b)
  end;
  simpl in *; try discriminate; try reflexivity; try lia.

Lemma ltb_irrefl (x : spec_float) : SFltb x x = false.
Proof.
  unfold SFltb, SFcompare.
  destruct x as [[|] | [|] | | [|] m e]; try reflexivity; compare_cases.
Qed.

Lemma ltb_trans (x y z : spec_float) :
  SFltb x y = true -> SFltb y z = true -> SFltb x z = true.
Proof.
  unfold SFltb, SFcompare.
  destruct x as [[|] | [|] | | [|] mx ex], y as [[|] | [|] | | [|] my ey];
    try discriminate;
    destruct z as [[|] | [|] | | [|] mz ez];
    try discriminate; try reflexivity; intros Hxy Hyz; compare_cases.
Qed.

Lemma eqb_ltb (x y z : spec_float) :
  Binary64.eqb x y = true -> SFltb x z = SFltb y z.
Proof.
  unfold Binary64.eqb, SFeqb, SFltb, SFcompare.
  destruct x as [[|] | [|] | | [|] mx ex], y as [[|] | [|] | | [|] my ey];
    try discriminate; try reflexivity; simpl; intros Hxy;
    try discriminate;
    destruct z as [[|] | [|] | | [|] mz ez]; try reflexivity; compare_cases.
Qed.

End Binary64Order.

Instance binary64_keys : FloatKeys binary64.
Proof.
  split; simpl.
  - apply Binary64Order.ltb_irrefl.
  - apply Binary64Order.ltb_trans.
  - apply Binary64Order.eqb_ltb.
Qed.

Section Pop.
Context {F : PyFloat} {FE : FloatEq F} {FK : FloatKeys F}.

Lemma min_from_first (pre : list entry) (best : entry) (mid l : list entry) :
  (forall x, x ∈ pre ->
     flt (e_f x) (e_f best) = false /\ feq (e_f x) (e_f best) = false) ->
  (forall x, x ∈ mid -> flt (e_f x) (e_f best) = false) ->
  exists l1 l2,
    pre ++ best :: mid ++ l = l1 ++ min_from best l :: l2 /\
    (forall x, x ∈ l1 ->
       flt (e_f x) (e_f (min_from best l)) = false /\
       feq (e_f x) (e_f (min_from best l)) = false) /\
    (forall x, x ∈ l2 -> flt (e_f x) (e_f (min_from best l)) = false).
Proof.
  revert pre best mid. induction l as [| y l IH]; intros pre best mid Hpre Hmid; simpl.
  - exists pre, mid. by rewrite app_nil_r.
  - destruct (flt (e_f y) (e_f best)) eqn:E.
    + destruct (IH (pre ++ best :: mid) y []) as (l1 & l2 & Heq & H1 & H2).
      * assert (Hlow : forall x, flt (e_f x) (e_f best) = false ->
                         flt (e_f x) (e_f y) = false /\ feq (e_f x) (e_f y) = false).
        { intros x Hx. split.
          - apply not_true_is_false. intros Hxy.
            by rewrite (key_trans _ _ _ Hxy E) in Hx.
          - apply not_true_is_false. intros Hxy.
            rewrite (key_eq_lt _ _ (e_f best) Hxy), E in Hx. done. }
        intros x [Hx | [-> | Hx]%elem_of_cons]%elem_of_app.
        -- apply Hlow. by apply Hpre.
        -- apply Hlow. apply key_irrefl.
        -- apply Hlow. by apply Hmid.
      * intros x Hx. by apply not_elem_of_nil in Hx.
      * exists l1, l2. split; [| done]. rewrite <- Heq.
        by rewrite <- (assoc_L (++)).
    + destruct (IH pre best (mid ++ [y])) as (l1 & l2 & Heq & H1 & H2).
      * done.
      * intros x [Hx | ->%list_elem_of_singleton]%elem_of_app; [by apply Hmid | done].
      * exists l1, l2. split; [| done]. rewrite <- Heq.
        by rewrite <- (assoc_L (++)).
Qed.

Lemma py_remove_skip (x : entry) (l1 l2 : list entry) :
  (forall y, y ∈ l1 -> entry_eqb y x = false) ->
  py_remove x (l1 ++ x :: l2) = Ok (l1 ++ l2).
Proof.
  intros H1. induction l1 as [| y l1 IH]; simpl.
  - by rewrite entry_eqb_refl.
  - rewrite (H1 y) by left. rewrite IH; [done |].
    intros z Hz. apply H1. by right.
Qed.

End Pop.

(** X19. Lines 71-72 take out the entry that [min] returned, not a
    look-alike: [remove] deletes the first entry of least key, and the
    other entries keep their order.  No entry before the deleted one
    has a smaller or an equal key, and no entry after it has a smaller
    one.  This needs that [<] is irreflexive and transitive on the
    keys and that equal keys compare alike; both IEEE double
    precision, NaN included, and exact arithmetic satisfy it. *)
Theorem pop_first_least {F : PyFloat} {FE : FloatEq F} {FK : FloatKeys F}
    (l : list entry) (cur : entry) :
  py_min l = Ok cur ->
  exists l1 l2, l = l1 ++ cur :: l2 /\
    py_remove cur l = Ok (l1 ++ l2) /\
    (forall x, x ∈ l1 ->
       flt (e_f x) (e_f cur) = false /\ feq (e_f x) (e_f cur) = false) /\
    (forall x, x ∈ l2 -> flt (e_f x) (e_f cur) = false).
Proof.
  intros Hmin. destruct l as [| x l]; [done |].
  cbn [py_min] in Hmin. injection Hmin as <-.
  destruct (min_from_first [] x [] l) as (l1 & l2 & Heq & H1 & H2).
  - intros y Hy. by apply not_elem_of_nil in Hy.
  - intros y Hy. by apply not_elem_of_nil in Hy.
  - cbn [app] in Heq. exists l1, l2. split; [done |]. split; [| done].
    rewrite Heq. apply py_remove_skip.
    intros y Hy. unfold entry_eqb. by rewrite (proj2 (H1 y Hy)).
Qed.

Lemma pop_first_least_witness :
  exists l1 l2,
    [Entry (F := binary64) (S754_finite false 3 0) 2 (0, 1) None;
     Entry (F := binary64) (S754_finite false 1 0) 1 (1, 0) None;
     Entry (F := binary64) (S754_finite false 1 0) 1 (1, 0) None]
    = l1 ++ Entry (F := binary64) (S754_finite false 1 0) 1 (1, 0) None :: l2 /\
    py_remove (Entry (F := binary64) (S754_finite false 1 0) 1 (1, 0) None)
      [Entry (F := binary64) (S754_finite false 3 0) 2 (0, 1) None;
       Entry (F := binary64) (S754_finite false 1 0) 1 (1, 0) None;
       Entry (F := binary64) (S754_finite false 1 0) 1 (1, 0) None]
    = Ok (l1 ++ l2) /\
    (forall x, x ∈ l1 ->
       flt (e_f x) (e_f (Entry (F := binary64) (S754_finite false 1 0) 1 (1, 0) None))
       = false /\
       feq (e_f x) (e_f (Entry (F := binary64) (S754_finite false 1 0) 1 (1, 0) None))
       = false) /\
    (forall x, x ∈ l2 ->
       flt (e_f x) (e_f (Entry (F := binary64) (S754_finite false 1 0) 1 (1, 0) None))
       = false).
Proof.
  apply (pop_first_least (F := binary64)
           [Entry (F := binary64) (S754_finite false 3 0) 2 (0, 1) None;
            Entry (F := binary64) (S754_finite false 1 0) 1 (1, 0) None;
            Entry (F := binary64) (S754_finite false 1 0) 1 (1, 0) None]
           (Entry (F := binary64) (S754_finite false 1 0) 1 (1, 0) None)).
  reflexivity.
Defined.

(** ** The range of the heuristic *)

(** X20. [heuristic] raises nothing when the coordinates of both cells
    are at most [2^500] in magnitude.  For every float arithmetic that
    converts the integers below [2^1023]. *)
Theorem heuristic_in_range {F : PyFloat} {FR : FloatRange F} (a b : Cell) :
  small a -> small b -> exists h, heuristic a b = Ok h.
Proof.
  unfold small. intros [A1 A2] [B1 B2]. unfold heuristic, int_to_float.
  assert (Hc : 2 * (2 * 2 ^ 500) ^ 2 < 2 ^ 1023) by (vm_compute; reflexivity).
  destruct (float_of_int_range ((a.1 - b.1) ^ 2 + (a.2 - b.2) ^ 2)) as [x ->].
  - remember (2 ^ 500) as B eqn:EB. remember (2 ^ 1023) as K eqn:EK. clear EB EK.
    pose proof (square_bound (a.1 - b.1) (2 * B) ltac:(lia)) as S1.
    pose proof (square_bound (a.2 - b.2) (2 * B) ltac:(lia)) as S2.
    pose proof (Z.square_nonneg (a.1 - b.1)) as N1.
    pose proof (Z.square_nonneg (a.2 - b.2)) as N2.
    rewrite <- Z.pow_2_r in N1, N2.
    remember ((2 * B) ^ 2) as Q eqn:EQ.
    remember ((a.1 - b.1) ^ 2) as X eqn:EX.
    remember ((a.2 - b.2) ^ 2) as Y eqn:EY.
    clear - Hc S1 S2 N1 N2. lia.
  - simpl. by eexists.
Qed.

Lemma heuristic_in_range_witness :
  exists h, heuristic (F := binary64) (0, 0) (2 ^ 500, - 2 ^ 500) = Ok h.
Proof.
  apply (heuristic_in_range (F := binary64)).
  - unfold small. split; vm_compute; discriminate.
  - unfold small. split; vm_compute; discriminate.
Defined.

Module Binary64Overflow.
Import Binary64.

Lemma Zdigits2_ge (m k : Z) : 0 <= k -> 2 ^ k <= m -> k + 1 <= Zdigits2 m.
Proof.
  intros Hk Hm.
  assert (0 < 2 ^ k) by (apply Z.pow_pos_nonneg; lia).
  pose proof (Binary64Facts.Zdigits2_lt_pow m ltac:(lia)) as Hlt.
  pose proof (Binary64Facts.Zdigits2_nonneg m) as Hd.
  destruct (Z.le_gt_cases (k + 1) (Zdigits2 m)) as [? | Hgt]; [done |].
  assert (2 ^ Zdigits2 m <= 2 ^ k) by (apply Z.pow_le_mono_r; lia). lia.
Qed.

Lemma shr_fexp_m_eq (m e : Z) (l : location) :
  0 <= m ->
  shr_m (fst (shr_fexp prec emax m e l))
  = m / 2 ^ Z.max 0 (fexp prec emax (Zdigits2 m + e) - e).
Proof.
  intros Hm. unfold shr_fexp.
  rewrite Binary64Facts.shr_fst_m by (by rewrite Binary64Facts.shr_record_of_loc_m).
  by rewrite Binary64Facts.shr_record_of_loc_m.
Qed.

(** An integer of at least [2^1024] rounds to infinity. *)
Lemma binary_normalize_overflow (n : Z) :
  2 ^ 1024 <= n -> binary_normalize prec emax n 0 false = S754_infinity false.
Proof.
  intros Hn. assert (H0 : 0 < 2 ^ 1024) by (apply Z.pow_pos_nonneg; lia).
  destruct n as [| p | p]; [lia | | lia]. simpl.
  unfold binary_round, shl_align.
  pose proof (Zdigits2_ge (Z.pos p) 1024 ltac:(lia) Hn) as Hd.
  change (Zdigits2 (Z.pos p)) with (Z.pos (digits2_pos p)) in Hd.
  set (d := Z.pos (digits2_pos p)) in *.
  rewrite Z.add_0_r, Z.sub_0_r, Binary64Facts.fexp_eq.
  destruct (Z.max (d - 53) (-1074)) as [| q | q] eqn:Eq; [lia | | lia].
  unfold binary_round_aux.
  destruct (shr_fexp prec emax (Z.pos p) 0 loc_Exact) as [mrs' e'] eqn:E1.
  pose proof (Binary64Facts.shr_fexp_snd (Z.pos p) 0 loc_Exact) as S1.
  rewrite E1 in S1. cbn [snd] in S1.
  pose proof (Binary64Facts.shr_fexp_m (Z.pos p) 0 loc_Exact ltac:(lia)) as M1.
  rewrite E1 in M1. cbn [fst] in M1.
  pose proof (shr_fexp_m_eq (Z.pos p) 0 loc_Exact ltac:(lia)) as M1'.
  rewrite E1 in M1'. cbn [fst] in M1'.
  change (Zdigits2 (Z.pos p)) with d in S1, M1'.
  rewrite Z.add_0_r, Z.sub_0_r, Binary64Facts.fexp_eq in M1'.
  rewrite Z.add_0_r, Binary64Facts.fexp_eq in S1.
  assert (He' : e' = d - 53) by lia.
  assert (Hlow : 2 ^ 52 <= shr_m mrs').
  { rewrite M1'. replace (Z.max 0 (Z.max (d - 53) (-1074))) with (d - 53) by lia.
    apply Z.div_le_lower_bound; [apply Z.pow_pos_nonneg; lia |].
    rewrite <- Z.pow_add_r by lia. replace (d - 53 + 52) with (d - 1) by lia.
    pose proof (Binary64Facts.digits2_pos_bounds p) as [Hlo _]. exact Hlo. }
  set (m1 := round_nearest_even (shr_m mrs') (loc_of_shr_record mrs')).
  pose proof (Binary64Facts.round_nearest_even_bounds (shr_m mrs') (loc_of_shr_record mrs')) as R.
  fold m1 in R.
  assert (H52 : 0 < 2 ^ 52) by (apply Z.pow_pos_nonneg; lia).
  destruct (shr_fexp prec emax m1 e' loc_Exact) as [mrs'' e''] eqn:E2.
  pose proof (Binary64Facts.shr_fexp_snd m1 e' loc_Exact) as S2.
  rewrite E2 in S2. cbn [snd] in S2.
  pose proof (shr_fexp_m_eq m1 e' loc_Exact ltac:(lia)) as M2.
  rewrite E2 in M2. cbn [fst] in M2.
  rewrite Binary64Facts.fexp_eq in S2, M2.
  assert (Hd1 : 53 <= Zdigits2 m1 <= 54).
  { split; [apply (Zdigits2_ge m1 52); lia |].
    apply Binary64Facts.Zdigits2_le; [| lia]. change (2 ^ 54) with (2 * 2 ^ 53). lia. }
  assert (Hpos : 0 < shr_m mrs'').
  { rewrite M2.
    apply Z.div_str_pos. split; [apply Z.pow_pos_nonneg; lia |].
    assert (2 ^ Z.max 0 (Z.max (Zdigits2 m1 + e' - 53) (-1074) - e') <= 2 ^ 1)
      by (apply Z.pow_le_mono_r; lia).
    change (2 ^ 52) with (2 ^ 1 * 2 ^ 51) in Hlow.
    assert (0 < 2 ^ 51) by (apply Z.pow_pos_nonneg; lia).
    nia. }
  destruct (shr_m mrs'') as [| m | m]; [lia | | lia].
  destruct (Z.leb_spec e'' (emax - prec)) as [Hle | _]; [| done].
  unfold emax, prec in Hle. lia.
Qed.

End Binary64Overflow.

(** X21. In IEEE double precision [heuristic] raises [OverflowError]
    whenever the squared distance of the two cells is [2^1024] or more:
    the integer is too large to convert to a float. *)
Theorem heuristic_overflow (a b : Cell) :
  2 ^ 1024 <= (a.1 - b.1) ^ 2 + (a.2 - b.2) ^ 2 ->
  heuristic (F := binary64) a b = Raise OverflowError.
Proof.
  intros H. unfold heuristic, int_to_float. simpl. unfold Binary64.of_int.
  by rewrite (Binary64Overflow.binary_normalize_overflow _ H).
Qed.

Lemma heuristic_overflow_witness :
  heuristic (F := binary64) (0, 0) far_goal = Raise OverflowError.
Proof.
  apply (heuristic_overflow (0, 0) far_goal).
  unfold far_goal. simpl. vm_compute. discriminate.
Defined.

(** ** A goal outside the grid *)



(** ** The value of the start cell *)

Lemma py_index_lookup {A} (l : list A) (i : Z) :
  0 <= i ->
  py_index l i = match l !! Z.to_nat i with Some x => Ok x | None => Raise IndexError end.
Proof.
  intros Hi. unfold py_index.
  destruct (Z.leb_spec 0 i); [| lia].
  destruct (Z.ltb_spec i (Z.of_nat (length l))) as [Hl | Hl]; simpl; [done |].
  destruct (Z.ltb_spec i 0); [lia |]. rewrite andb_false_r.
  by rewrite (proj2 (lookup_ge_None l (Z.to_nat i))) by lia.
Qed.

Lemma height_set_cell (grid : Grid) (c : Cell) (v : Z) :
  height (set_cell grid c v) = height grid.
Proof.
  unfold set_cell, height. destruct ((0 <=? c.1) && (0 <=? c.2)); [| done].
  by rewrite length_alter.
Qed.

Lemma width_set_cell (grid : Grid) (c : Cell) (v : Z) :
  width (set_cell grid c v) = width grid.
Proof.
  unfold set_cell, width. destruct ((0 <=? c.1) && (0 <=? c.2)); [| done].
  destruct grid as [| row0 rest]; [done |].
  destruct (Z.to_nat c.1); simpl; [| done]. by rewrite length_insert.
Qed.

Lemma walkable_set_cell_ne (grid : Grid) (COL ROW : Z) (c : Cell) (v : Z) (n : Cell) :
  n <> c ->
  walkable (set_cell grid c v) COL ROW n = walkable grid COL ROW n.
Proof.
  intros Hn. unfold set_cell.
  destruct (Z.leb_spec 0 c.1) as [C1 | C1]; simpl; [| done].
  destruct (Z.leb_spec 0 c.2) as [C2 | C2]; simpl; [| done].
  unfold walkable.
  destruct (Z.leb_spec 0 n.1) as [H1 | H1]; simpl; [| done].
  destruct (Z.ltb_spec n.1 COL) as [H2 | H2]; simpl; [| done].
  destruct (Z.leb_spec 0 n.2) as [H3 | H3]; simpl; [| done].
  destruct (Z.ltb_spec n.2 ROW) as [H4 | H4]; simpl; [| done].
  rewrite !(py_index_lookup _ n.1) by done.
  destruct (decide (n.1 = c.1)) as [E1 | E1].
  - rewrite E1, list_lookup_alter_eq.
    destruct (grid !! Z.to_nat c.1) as [row |]; simpl; [| done].
    rewrite !(py_index_lookup _ n.2) by done.
    rewrite list_lookup_insert_ne; [done |].
    intros E2. apply Hn. destruct n, c. simpl in *. f_equal; lia.
  - rewrite list_lookup_alter_ne by lia. done.
Qed.

Lemma walkable_set_cell_eq (grid : Grid) (COL ROW : Z) (c : Cell) (v : Z) :
  (exists b b', walkable (set_cell grid c v) COL ROW c = Ok b /\
                walkable grid COL ROW c = Ok b') \/
  (exists e, walkable (set_cell grid c v) COL ROW c = Raise e /\
             walkable grid COL ROW c = Raise e).
Proof.
  unfold set_cell.
  destruct (Z.leb_spec 0 c.1) as [C1 | C1]; simpl.
  2: { left. unfold walkable. destruct (Z.leb_spec 0 c.1); [lia |]. simpl. by eexists _, _. }
  destruct (Z.leb_spec 0 c.2) as [C2 | C2]; simpl.
  2: { left. unfold walkable. destruct (Z.leb_spec 0 c.2); [lia |].
       rewrite andb_false_r. simpl. by eexists _, _. }
  unfold walkable.
  destruct ((0 <=? c.1) && (c.1 <? COL) && (0 <=? c.2) && (c.2 <? ROW));
    [| left; by eexists _, _].
  rewrite !(py_index_lookup _ c.1) by done. rewrite list_lookup_alter_eq.
  destruct (grid !! Z.to_nat c.1) as [row |]; simpl; [| right; by eexists].
  rewrite !(py_index_lookup _ c.2) by done.
  destruct (row !! Z.to_nat c.2) as [x |] eqn:Ex.
  - rewrite list_lookup_insert_eq by (by apply lookup_lt_Some in Ex).
    simpl. left. by eexists _, _.
  - rewrite (proj2 (lookup_ge_None _ _)).
    + simpl. right. by eexists.
    + rewrite length_insert. by apply lookup_ge_None.
Qed.

Section StartCell.
Context {F : PyFloat}.
Variables g1 g2 : Grid.
Variables start end_ : Cell.
Variables COL ROW : Z.

Hypothesis same_test : forall n, n <> start ->
  walkable g1 COL ROW n = walkable g2 COL ROW n.
Hypothesis start_test :
  (exists b b', walkable g1 COL ROW start = Ok b /\ walkable g2 COL ROW start = Ok b') \/
  (exists e, walkable g1 COL ROW start = Raise e /\ walkable g2 COL ROW start = Raise e).

(** The start keeps its g-score [0]: no update of lines 104-108 touches
    it. *)
Lemma relax_start (c : Cell) (g : Z) (st : state) :
  g_scores st !! start = Some 0 -> 0 <= g -> relax end_ c g start st = Ok st.
Proof.
  intros Hs Hg. unfold relax, improves. rewrite Hs.
  destruct (Z.ltb_spec (g + 1) 0); [lia | done].
Qed.

Lemma relax_keeps_start (c : Cell) (g : Z) (n : Cell) (st st' : state) :
  g_scores st !! start = Some 0 -> 0 <= g -> relax end_ c g n st = Ok st' ->
  g_scores st' !! start = Some 0.
Proof.
  intros Hs Hg R. destruct (decide (n = start)) as [-> | Hn].
  - rewrite relax_start in R by done. by injection R as <-.
  - apply relax_inv in R as [[_ ->] | (_ & h & x & _ & _ & ->)]; [done |].
    simpl. by rewrite lookup_insert_ne.
Qed.

Lemma expand_start (c : Cell) (g : Z) (moves : list (Z * Z)) (st : state) :
  g_scores st !! start = Some 0 -> 0 <= g ->
  expand g1 end_ COL ROW c g moves st = expand g2 end_ COL ROW c g moves st.
Proof.
  intros Hs Hg. revert st Hs.
  induction moves as [| [dx dy] moves IH]; intros st Hs; simpl; [done |].
  destruct (decide ((c.1 + dx, c.2 + dy) = start)) as [E | E].
  - rewrite E.
    destruct start_test as [(b & b' & -> & ->) | (e & -> & ->)]; cbn [res_bind]; [| done].
    assert (H1 : (if b then relax end_ c g start st else Ok st) = Ok st)
      by (destruct b; [by apply relax_start | done]).
    assert (H2 : (if b' then relax end_ c g start st else Ok st) = Ok st)
      by (destruct b'; [by apply relax_start | done]).
    rewrite H1, H2. cbn [res_bind]. by apply IH.
  - rewrite (same_test _ E).
    destruct (walkable g2 COL ROW (c.1 + dx, c.2 + dy)) as [[|] |]; cbn [res_bind];
      [| by apply IH | done].
    destruct (relax end_ c g (c.1 + dx, c.2 + dy) st) as [st1 |] eqn:R; cbn [res_bind];
      [| done].
    apply IH. exact (relax_keeps_start c g _ st st1 Hs Hg R).
Qed.

Lemma iteration_start (st : state) :
  basic g1 start end_ COL ROW st ->
  iteration g1 end_ COL ROW st = iteration g2 end_ COL ROW st.
Proof.
  intros B. unfold iteration.
  destruct (py_min (open_set st)) as [cur |] eqn:Hmin; cbn [res_bind]; [| done].
  destruct (py_remove cur (open_set st)) as [open' |]; cbn [res_bind]; [| done].
  destruct (cell_eqb (e_node cur) end_); [done |].
  rewrite expand_start; [done | by apply (b_start _ _ _ _ _ _ B) |].
  apply py_min_elem in Hmin.
  by destruct (b_open _ _ _ _ _ _ B _ Hmin) as (_ & ? & _).
Qed.

Lemma search_start (pfuel fuel : nat) (st : state) (w : world) :
  basic g1 start end_ COL ROW st ->
  search g1 start end_ COL ROW pfuel fuel st w
  = search g2 start end_ COL ROW pfuel fuel st w.
Proof.
  revert st. induction fuel as [| fuel IH]; intros st B; simpl; [done |].
  destruct (open_set st) eqn:Ho; [done |].
  rewrite <- (iteration_start st B).
  destruct (iteration g1 end_ COL ROW st) as [[c st1 | st'] |] eqn:It; [done | | done].
  apply IH. by apply (iteration_next _ _ _ _ _ _ _ B It).
Qed.

End StartCell.

(** X23. The value of the start cell is never consulted: writing any
    value into the grid at the start changes neither the result, nor
    the exception, nor the effects of the call.  A Blocked start is
    treated like a Free one. *)
Theorem do_a_star_start_value {F : PyFloat} (rnd : nat -> Z) (fuel : nat)
    (grid : Grid) (start goal : Cell) (v : Z) (w : world) :
  do_a_star rnd fuel (set_cell grid start v) start goal w
  = do_a_star rnd fuel grid start goal w.
Proof.
  destruct (do_a_star_cases rnd fuel grid start goal w)
    as [[-> _] | [(Hh & Hw & _) | (Hh & Hw & ->)]].
  - unfold set_cell. by destruct ((0 <=? start.1) && (0 <=? start.2)).
  - destruct grid as [| [| x row0] rest]; [done | | done].
    assert (exists rest', set_cell ([] :: rest) start v = [] :: rest') as [rest' ->].
    { unfold set_cell. destruct ((0 <=? start.1) && (0 <=? start.2)); [| by eexists].
      destruct (Z.to_nat start.1); simpl; by eexists. }
    by rewrite !do_a_star_empty_row.
  - destruct (do_a_star_cases rnd fuel (set_cell grid start v) start goal w)
      as [[E _] | [(_ & E & _) | (_ & _ & ->)]].
    + apply (f_equal height) in E. rewrite height_set_cell in E.
      unfold height in E at 2. simpl in E. lia.
    + rewrite width_set_cell in E. lia.
    + rewrite height_set_cell, width_set_cell.
      apply search_start.
      * intros n Hn. by apply walkable_set_cell_ne.
      * apply walkable_set_cell_eq.
      * apply basic_initial.
Qed.
